(** * generate_pngs.py: the PNG export sweep

    A shallow embedding of [src/generate_pngs.py], the script that walks a
    fixed registry of SVG logos and a fixed catalogue of pixel widths and
    asks Inkscape, then ImageMagick, to rasterise every (logo, width) pair.

    The script is module-level code whose whole behaviour is effects:
    directories made, child processes launched, lines printed.  It is
    embedded in a state-and-exception monad over an explicit model of
    the filesystem and of the standard output; the outside world (what a
    child process does and writes, whether its output decodes, whether a
    path may be examined or a directory made, whether the standard
    output takes a line) is an arbitrary [World]. *)

From Stdlib Require Import ZArith DecimalString Ascii.
From stdpp Require Import gmap strings list.

Local Open Scope Z_scope.

(** ** Python values *)

(** [str(n)] for a Python [int]: decimal digits, a leading minus sign for
    negatives. *)
Definition str_int (n : Z) : string := NilZero.string_of_int (Z.to_int n).

(** Line feed, for the leading [\n] of the closing message. *)
Definition nl : string := String (ascii_of_nat 10) EmptyString.

(** A [dict] literal, iterated in insertion order: an association list. *)
Definition dict_keys {V} (d : list (string * V)) : list string := d.*1.

Fixpoint dict_lookup {V} (d : list (string * V)) (k : string) : option V :=
  match d with
  | [] => None
  | (k', v) :: d' => if String.eqb k' k then Some v else dict_lookup d' k
  end.

(** ** pathlib

    A relative [Path] is its tuple of parts.  [Path(s)] splits [s] at the
    separators and drops empty and [.] segments; [p / s] appends the parts
    of [s]; [str(p)] joins the parts (POSIX flavour); [p.name] is the last
    part. *)
Abbreviation Path := (list string).

Fixpoint split_sep (s : string) : list string :=
  match s with
  | EmptyString => [EmptyString]
  | String c s' =>
      match split_sep s' with
      | seg :: rest =>
          if Ascii.eqb c "/" then EmptyString :: seg :: rest
          else String c seg :: rest
      | [] => [String c EmptyString]
      end
  end.

Definition keep_part (seg : string) : bool :=
  negb (String.eqb seg "" || String.eqb seg ".").

Definition mkPath (s : string) : Path := List.filter keep_part (split_sep s).

Definition path_div (p : Path) (s : string) : Path := p ++ mkPath s.

Fixpoint join_parts (p : Path) : string :=
  match p with
  | [] => ""
  | [a] => a
  | a :: rest => a +:+ "/" +:+ join_parts rest
  end.

Definition path_str (p : Path) : string :=
  match p with [] => "." | _ => join_parts p end.

Definition path_name (p : Path) : string := List.last p "".

(** [p.parent]; the parent of the empty path is itself. *)
Definition parent (p : Path) : Path := removelast p.

(** The directories [mkdir(parents=True)] may have to make: every
    non-empty prefix of the path, the path itself included. *)
Definition path_chain (p : Path) : list Path :=
  List.map (fun k => take k p) (seq 1 (length p)).

(** ** The world outside the script *)

(** The exception classes that can reach the script.  [KeyboardInterrupt]
    and [SystemExit] derive from [BaseException] only, not from
    [Exception]. *)
Inductive PyExn :=
| FileNotFoundError
| FileExistsError
| NotADirectoryError
| PermissionError
| BrokenPipeError
| OSError
| UnicodeDecodeError
| CalledProcessError (returncode : Z)
| KeyError (key : string)
| Exception (msg : string)
| KeyboardInterrupt
| SystemExit.

Definition is_Exception (e : PyExn) : bool :=
  match e with
  | KeyboardInterrupt | SystemExit => false
  | _ => true
  end.

(** The classes [except OSError] catches, and the one
    [except FileNotFoundError] catches. *)
Definition is_OSError (e : PyExn) : bool :=
  match e with
  | FileNotFoundError | FileExistsError | NotADirectoryError
  | PermissionError | BrokenPipeError | OSError => true
  | _ => false
  end.

Definition is_FileNotFoundError (e : PyExn) : bool :=
  match e with FileNotFoundError => true | _ => false end.

(** Why the system refuses a path, and the exception that reports it. *)
Inductive Errno := EACCES | EPERM | EROFS | ENOSPC | EIO.

Definition exn_of_errno (n : Errno) : PyExn :=
  match n with
  | EACCES | EPERM => PermissionError
  | EROFS | ENOSPC | EIO => OSError
  end.

(** What the system lets the process do with a path: anything; look at
    it but make nothing there; or not even look (a parent that cannot be
    searched).  A path that cannot be looked at cannot be made either. *)
Inductive Access :=
| Reachable
| WriteRefused (why : Errno)
| Unreachable (why : Errno).

(** What launching a command line leads to: the child runs and exits with
    a status, having written bytes on its two streams, or
    [subprocess.run] itself raises (the program is not installed, the
    user interrupts while the parent waits, ...). *)
Inductive ProcResult :=
| Exits (returncode : Z) (out err : string)
| Fails (e : PyExn).

(** Everything observable, in order. *)
Inductive Event :=
| EMkdir (p : Path)
| ERun (argv : list string)
| EPrint (line : string)
| EChildOut (text : string)
| EChildErr (text : string).

(** The world: what a command line leads to; whether the child launched
    with it wrote the file it was asked for; whether the locale's codec
    decodes a run of bytes; what may be done with a path; and whether
    the standard output, after what has happened so far, takes one more
    line or raises. *)
Record World := {
  spawn : list string -> ProcResult;
  wrote : list string -> bool;
  decodes : string -> bool;
  access : Path -> Access;
  print_error : list Event -> string -> option PyExn
}.

#[global] Instance PyExn_eq_dec : EqDecision PyExn.
Proof. solve_decision. Defined.

#[global] Instance Event_eq_dec : EqDecision Event.
Proof. solve_decision. Defined.

Record State := {
  dirs : gset Path;
  files : gset Path;
  trace : list Event
}.

Definition log (e : Event) (s : State) : State :=
  {| dirs := dirs s; files := files s; trace := trace s ++ [e] |}.

Definition add_dirs (d : gset Path) (s : State) : State :=
  {| dirs := dirs s ∪ d; files := files s; trace := trace s |}.

Definition add_files (f : gset Path) (s : State) : State :=
  {| dirs := dirs s; files := files s ∪ f; trace := trace s |}.

(** What the process wrote on its standard output: its own [print]s and
    whatever a child wrote on an inherited stdout. *)
Definition stdout_of (tr : list Event) : list string :=
  omap (fun e => match e with
                 | EPrint l => Some l
                 | EChildOut t => Some t
                 | _ => None
                 end) tr.

Definition runs_of (tr : list Event) : list (list string) :=
  omap (fun e => match e with ERun argv => Some argv | _ => None end) tr.

(** ** State and exceptions *)

Inductive Outcome (A : Type) :=
| Normal (a : A) (s : State)
| Raised (e : PyExn) (s : State).
Arguments Normal {A} a s.
Arguments Raised {A} e s.

Definition M (A : Type) : Type := State -> Outcome A.

Definition ret {A} (a : A) : M A := fun s => Normal a s.

Definition bind {A B} (m : M A) (k : A -> M B) : M B :=
  fun s => match m s with
           | Normal a s' => k a s'
           | Raised e s' => Raised e s'
           end.

Definition raise {A} (e : PyExn) : M A := fun s => Raised e s.

(** [try: body  except: handler] with a bare [except]: every exception,
    whatever its class, is handed to the handler. *)
Definition try_except {A} (body handler : M A) : M A :=
  fun s => match body s with
           | Normal a s' => Normal a s'
           | Raised _ s' => handler s'
           end.

Declare Scope py_scope.
Delimit Scope py_scope with py.
Notation "x <- c1 ;; c2" := (bind c1 (fun x => c2))
  (at level 100, c1 at next level, right associativity) : py_scope.
Notation "c1 ;; c2" := (bind c1 (fun _ => c2))
  (at level 100, right associativity) : py_scope.
Local Open Scope py_scope.

(** [for x in l: body x] *)
Fixpoint for_each {A} (l : list A) (body : A -> M unit) : M unit :=
  match l with
  | [] => ret tt
  | x :: l' => body x ;; for_each l' body
  end.

(** [d[k]] *)
Definition dict_getitem {V} (d : list (string * V)) (k : string) : M V :=
  match dict_lookup d k with
  | Some v => ret v
  | None => raise (KeyError k)
  end.

(** ** The library calls the script makes *)

Fixpoint strip_prefix (pre s : string) : option string :=
  match pre, s with
  | EmptyString, _ => Some s
  | String a pre', String b s' =>
      if Ascii.eqb a b then strip_prefix pre' s' else None
  | String _ _, EmptyString => None
  end.

Fixpoint first_some {A B} (f : A -> option B) (l : list A) : option B :=
  match l with
  | [] => None
  | x :: l' => match f x with Some y => Some y | None => first_some f l' end
  end.

(** The file a rasteriser is asked to write, read off its command line:
    Inkscape takes it in [--export-filename=], ImageMagick's [convert] as
    its last argument. *)
Definition destination (argv : list string) : option Path :=
  match argv with
  | prog :: args =>
      if String.eqb prog "inkscape" then
        mkPath <$> first_some (strip_prefix "--export-filename=") args
      else if String.eqb prog "magick" then
        match args with
        | _ :: _ :: _ => Some (mkPath (List.last args ""))
        | _ => None
        end
      else None
  | [] => None
  end.

(** A rasteriser writes, if anything, the file it was asked for: what
    the child launched with [argv] added to the filesystem. *)
Definition child_writes (W : World) (argv : list string) : gset Path :=
  if wrote W argv then
    match destination argv with Some p => {[ p ]} | None => ∅ end
  else ∅.

Record CompletedProcess := {
  cp_returncode : Z;
  cp_stdout : option string;
  cp_stderr : option string
}.

Section Library.
Variable W : World.

(** [print(line)]: the line goes out, or the stream raises and nothing
    goes out. *)
Definition print (line : string) : M unit :=
  fun s =>
    match print_error W (trace s) line with
    | Some e => Raised e s
    | None => Normal tt (log (EPrint line) s)
    end.

(** [p.exists()] and [p.is_dir()]: both ask the system about the path and
    re-raise its refusal. *)
Definition path_exists (p : Path) : M bool :=
  fun s =>
    match access W p with
    | Unreachable why => Raised (exn_of_errno why) s
    | _ => Normal (bool_decide (p = [] ∨ p ∈ dirs s ∨ p ∈ files s)) s
    end.

Definition is_dir (p : Path) : M bool :=
  fun s =>
    match access W p with
    | Unreachable why => Raised (exn_of_errno why) s
    | _ => Normal (bool_decide (p = [] ∨ p ∈ dirs s)) s
    end.

(** [os.mkdir(p)]: one directory, whose parent must be there. *)
Definition os_mkdir (p : Path) : M unit :=
  fun s =>
    match access W p with
    | Unreachable why | WriteRefused why => Raised (exn_of_errno why) s
    | Reachable =>
        if bool_decide (p = [] ∨ p ∈ dirs s ∨ p ∈ files s)
        then Raised FileExistsError s
        else if bool_decide (parent p ∈ files s)
        then Raised NotADirectoryError s
        else if bool_decide (parent p = [] ∨ parent p ∈ dirs s)
        then Normal tt (add_dirs {[ p ]} s)
        else Raised FileNotFoundError s
    end.

(** [Path.mkdir(parents=..., exist_ok=...)], as pathlib writes it:
    [os.mkdir]; on [FileNotFoundError], with [parents], the parent is
    made first (with [parents=True, exist_ok=True]) and the path again
    without [parents]; on any other [OSError], with [exist_ok], the error
    is dropped if the path is a directory.  The recursion follows the
    parents, at most [fuel] of them. *)
Fixpoint path_mkdir (fuel : nat) (p : Path) (parents exist_ok : bool)
  : M unit :=
  fun s =>
    match os_mkdir p s with
    | Normal _ s' => Normal tt s'
    | Raised e s' =>
        if is_FileNotFoundError e then
          if negb parents || bool_decide (parent p = p) then Raised e s'
          else match fuel with
               | O => Raised e s'
               | S fuel' =>
                   bind (path_mkdir fuel' (parent p) true true)
                        (fun _ => path_mkdir fuel' p false exist_ok) s'
               end
        else if is_OSError e then
          if negb exist_ok then Raised e s'
          else match is_dir p s' with
               | Normal d s'' => if negb d then Raised e s'' else Normal tt s''
               | Raised e' s'' => Raised e' s''
               end
        else Raised e s'
    end.

(** [p.mkdir(parents=True, exist_ok=True)], the call of line 30. *)
Definition mkdir_p (p : Path) : M unit :=
  fun s => path_mkdir (length p) p true true (log (EMkdir p) s).

(** [subprocess.run(argv, check=..., capture_output=..., text=...)].
    With [capture_output] the child's two streams go to pipes and end up
    in the returned object, decoded if [text] is set, and decoding can
    raise; without it the child inherits the parent's streams.  With
    [check] a non-zero status raises. *)
Definition subprocess_run (argv : list string)
    (check capture_output text : bool) : M CompletedProcess :=
  fun s0 =>
    let s := add_files (child_writes W argv) (log (ERun argv) s0) in
    match spawn W argv with
    | Fails e => Raised e s
    | Exits rc out err =>
        if capture_output then
          if text && negb (decodes W out && decodes W err)
          then Raised UnicodeDecodeError s
          else if check && negb (rc =? 0)
          then Raised (CalledProcessError rc) s
          else Normal {| cp_returncode := rc;
                         cp_stdout := Some out;
                         cp_stderr := Some err |} s
        else
          let s' := log (EChildErr err) (log (EChildOut out) s) in
          if check && negb (rc =? 0)
          then Raised (CalledProcessError rc) s'
          else Normal {| cp_returncode := rc;
                         cp_stdout := None;
                         cp_stderr := None |} s'
    end.
End Library.

(** ** The script *)

(** Lines 6-14. *)
Definition svg_files : list (string * string) :=
  [ ("synced-sports-primary.svg", "primary");
    ("synced-sports-horizontal.svg", "horizontal");
    ("synced-sports-icon.svg", "icon");
    ("synced-sports-waves-only.svg", "waves");
    ("synced-sports-black.svg", "black");
    ("synced-sports-white.svg", "white");
    ("synced-sports-wordmark.svg", "wordmark") ].

(** Lines 17-21. *)
Definition sizes : list (string * list Z) :=
  [ ("small", [32; 64]);
    ("medium", [128; 256]);
    ("large", [512; 1024]) ].

(** Lines 23-24. *)
Definition svg_dir : Path := mkPath "SyncedSports-BrandPack/Logos/SVG".
Definition png_dir : Path := mkPath "SyncedSports-BrandPack/Logos/PNG".

(** Line 29. *)
Definition size_dir (size : Z) : Path :=
  path_div png_dir (str_int size +:+ "px").

(** Line 36. *)
Definition svg_path (svg_file : string) : Path := path_div svg_dir svg_file.

(** Line 43. *)
Definition output_path (base_name : string) (size : Z) : Path :=
  path_div (path_div png_dir (str_int size +:+ "px"))
           ("synced-sports-" +:+ base_name +:+ "-" +:+ str_int size +:+ ".png").

(** Lines 47-53. *)
Definition inkscape_cmd (svg_file base_name : string) (size : Z) : list string :=
  [ "inkscape";
    path_str (svg_path svg_file);
    "--export-width=" +:+ str_int size;
    "--export-type=png";
    "--export-filename=" +:+ path_str (output_path base_name size) ].

(** Lines 62-69. *)
Definition magick_cmd (svg_file base_name : string) (size : Z) : list string :=
  [ "magick"; "convert";
    "-background"; "none";
    "-density"; "300";
    "-resize"; str_int size +:+ "x" +:+ str_int size;
    path_str (svg_path svg_file);
    path_str (output_path base_name size) ].

Definition created_msg (base_name : string) (size : Z) : string :=
  "Created " +:+ path_name (output_path base_name size).

Definition created_magick_msg (base_name : string) (size : Z) : string :=
  "Created " +:+ path_name (output_path base_name size) +:+ " (with ImageMagick)".

Definition failed_msg (svg_file : string) (size : Z) : string :=
  "Could not convert " +:+ svg_file +:+ " to " +:+ str_int size
    +:+ "px PNG - tools not available".

Definition skipping_msg (svg_file : string) : string :=
  "Skipping " +:+ svg_file +:+ " - file not found".

Definition opening_msg : string := "Generating PNG exports...".

Definition closing_msg : string :=
  nl +:+ "PNG generation attempted. Some files may need manual conversion if tools are not installed.".

Section Script.
Variable W : World.

(** Lines 27-30: the size subdirectories. *)
Definition create_size_dirs : M unit :=
  for_each (dict_keys sizes) (fun category =>
    l <- dict_getitem sizes category ;;
    for_each l (fun size => mkdir_p W (size_dir size))).

(** Lines 43-74: one (logo, width) pair. *)
Definition convert (svg_file base_name : string) (size : Z) : M unit :=
  try_except
    (result <- subprocess_run W (inkscape_cmd svg_file base_name size)
                 false true true ;;
     if cp_returncode result =? 0
     then print W (created_msg base_name size)
     else raise (Exception "Inkscape failed"))
    (try_except
       (_ <- subprocess_run W (magick_cmd svg_file base_name size)
               true true false ;;
        print W (created_magick_msg base_name size))
       (print W (failed_msg svg_file size))).

(** Lines 36-74: one registry entry.  [continue] leaves the body. *)
Definition process_svg (entry : string * string) : M unit :=
  let '(svg_file, base_name) := entry in
  found <- path_exists W (svg_path svg_file) ;;
  if negb found then print W (skipping_msg svg_file)
  else
    for_each (dict_keys sizes) (fun category =>
      l <- dict_getitem sizes category ;;
      for_each l (fun size => convert svg_file base_name size)).

(** Lines 27-76: the whole run. *)
Definition main : M unit :=
  create_size_dirs ;;
  print W opening_msg ;;
  for_each svg_files process_svg ;;
  print W closing_msg.
End Script.

(** ** Vocabulary of the statements *)

(** The catalogue flattened, in the order the nested loops visit it. *)
Definition widths : list Z := mjoin (sizes.*2).

Definition tokens : list string := svg_files.*2.

(** A process starts with nothing written yet. *)
Definition fresh (s : State) : State :=
  {| dirs := dirs s; files := files s; trace := [] |}.

Definition state_of {A} (r : Outcome A) : State :=
  match r with Normal _ s => s | Raised _ s => s end.

(** Whether the source file of a registry entry is there. *)
Definition present (s : State) (svg_file : string) : bool :=
  bool_decide (svg_path svg_file ∈ dirs s ∨ svg_path svg_file ∈ files s).

(** Whether the system lets the process look at a path. *)
Definition can_look (W : World) (p : Path) : bool :=
  match access W p with Unreachable _ => false | _ => true end.

(** A call of [subprocess.run] gets the script past it exactly when the
    child ran and exited with status zero and, where the call asks for
    text, both captured streams decode. *)
Definition call_ok (W : World) (argv : list string) (text : bool) : bool :=
  match spawn W argv with
  | Exits rc out err =>
      (rc =? 0) && (negb text || (decodes W out && decodes W err))
  | Fails _ => false
  end.

(** The standard output takes every line. *)
Definition prints_work (W : World) : Prop :=
  ∀ tr line, print_error W tr line = None.

(** The standard output takes every line and every registered source can
    be looked at. *)
Definition io_works (W : World) : Prop :=
  prints_work W
  ∧ (∀ f b, (f, b) ∈ svg_files -> can_look W (svg_path f) = true).

(** Events appended and files added, as one step. *)
Definition emit (evs : list Event) (fs : gset Path) (s : State) : State :=
  {| dirs := dirs s; files := files s ∪ fs; trace := trace s ++ evs |}.

(** The files the children launched in a run of events wrote. *)
Definition written (W : World) (evs : list Event) : gset Path :=
  ⋃ ((fun ev => match ev with
                | ERun argv => child_writes W argv
                | _ => ∅
                end) <$> evs).

(** A stretch of the run, described: the events it appends and the
    exception that ends it, if one does. *)
Definition Step : Type := list Event * option PyExn.

Definition finish (W : World) (st : Step) (s : State) : Outcome unit :=
  match st.2 with
  | None => Normal tt (emit st.1 (written W st.1) s)
  | Some e => Raised e (emit st.1 (written W st.1) s)
  end.

(** A loop, described: each iteration sees the trace the earlier ones
    left; the first exception ends the loop. *)
Fixpoint thread {A} (step : list Event -> A -> Step) (tr : list Event)
    (l : list A) : Step :=
  match l with
  | [] => ([], None)
  | x :: l' =>
      match step tr x with
      | (evs, Some e) => (evs, Some e)
      | (evs, None) =>
          (evs ++ (thread step (tr ++ evs) l').1,
           (thread step (tr ++ evs) l').2)
      end
  end.

Section Described.
Variable W : World.

(** One pair, after the trace [tr]. *)
Definition convert_step (tr : list Event) (svg_file base_name : string)
    (size : Z) : Step :=
  let ink := ERun (inkscape_cmd svg_file base_name size) in
  let mag := ERun (magick_cmd svg_file base_name size) in
  if call_ok W (inkscape_cmd svg_file base_name size) true
     && bool_decide (print_error W (tr ++ [ink]) (created_msg base_name size)
                     = None)
  then ([ink; EPrint (created_msg base_name size)], None)
  else if call_ok W (magick_cmd svg_file base_name size) false
          && bool_decide (print_error W ((tr ++ [ink]) ++ [mag])
                            (created_magick_msg base_name size) = None)
  then ([ink; mag; EPrint (created_magick_msg base_name size)], None)
  else match print_error W ((tr ++ [ink]) ++ [mag])
               (failed_msg svg_file size) with
       | None => ([ink; mag; EPrint (failed_msg svg_file size)], None)
       | Some e => ([ink; mag], Some e)
       end.

(** One registry entry, given which sources are there. *)
Definition entry_step (pres : string -> bool) (tr : list Event)
    (e : string * string) : Step :=
  match access W (svg_path e.1) with
  | Unreachable why => ([], Some (exn_of_errno why))
  | _ =>
      if pres e.1
      then thread (fun tr' z => convert_step tr' e.1 e.2 z) tr widths
      else match print_error W tr (skipping_msg e.1) with
           | Some ex => ([], Some ex)
           | None => ([EPrint (skipping_msg e.1)], None)
           end
  end.

Definition sweep_step (pres : string -> bool) (tr : list Event) : Step :=
  thread (entry_step pres) tr svg_files.

(** Everything after the setup loop. *)
Definition after_setup (pres : string -> bool) (tr : list Event) : Step :=
  match print_error W tr opening_msg with
  | Some e => ([], Some e)
  | None =>
      let r := sweep_step pres (tr ++ [EPrint opening_msg]) in
      match r.2 with
      | Some e => (EPrint opening_msg :: r.1, Some e)
      | None =>
          match print_error W ((tr ++ [EPrint opening_msg]) ++ r.1)
                  closing_msg with
          | Some e => (EPrint opening_msg :: r.1, Some e)
          | None => (EPrint opening_msg :: r.1 ++ [EPrint closing_msg], None)
          end
      end
  end.

(** With a standard output that takes every line, what one pair,
    one entry and the sweep append does not depend on the trace. *)
Definition convert_events (svg_file base_name : string) (size : Z)
  : list Event :=
  ERun (inkscape_cmd svg_file base_name size) ::
  if call_ok W (inkscape_cmd svg_file base_name size) true
  then [EPrint (created_msg base_name size)]
  else ERun (magick_cmd svg_file base_name size) ::
       if call_ok W (magick_cmd svg_file base_name size) false
       then [EPrint (created_magick_msg base_name size)]
       else [EPrint (failed_msg svg_file size)].

Definition entry_events (pres : string -> bool) (e : string * string)
  : list Event :=
  if pres e.1 then widths ≫= convert_events e.1 e.2
  else [EPrint (skipping_msg e.1)].

Definition sweep_events (pres : string -> bool) : list Event :=
  svg_files ≫= entry_events pres.
End Described.

(** A command line of the configuration: of a registry entry and a
    catalogue width. *)
Definition config_run (argv : list string) : Prop :=
  ∃ f b z, (f, b) ∈ svg_files ∧ z ∈ widths
           ∧ (argv = inkscape_cmd f b z ∨ argv = magick_cmd f b z).

(** An event that is not of the pair [(f, b, z)]: of setup, the opening
    or the closing line, a skip notice, or of another pair. *)
Definition foreign (W : World) (f b : string) (z : Z) (ev : Event) : Prop :=
  (∃ z', ev = EMkdir (size_dir z'))
  ∨ ev = EPrint opening_msg ∨ ev = EPrint closing_msg
  ∨ (∃ f' b', (f', b') ∈ svg_files ∧ ev = EPrint (skipping_msg f'))
  ∨ (∃ f' b' z' tr', (f', b') ∈ svg_files ∧ z' ∈ widths
       ∧ (f', b', z') ≠ (f, b, z)
       ∧ ev ∈ (convert_step W tr' f' b' z').1).

(** The lines printed outside every [try] block: the opening and the
    closing message, the skip notices and the "Could not convert" lines
    of the inner handler. *)
Definition unguarded_line (line : string) : Prop :=
  line = opening_msg ∨ line = closing_msg
  ∨ (∃ f b, (f, b) ∈ svg_files ∧ line = skipping_msg f)
  ∨ (∃ f b z, (f, b) ∈ svg_files ∧ z ∈ widths ∧ line = failed_msg f z).

(** The lines the script itself can print, letter by letter. *)
Definition status_line (l : string) : Prop :=
  l = "Generating PNG exports..."
  ∨ l = nl +:+ "PNG generation attempted. Some files may need manual conversion if tools are not installed."
  ∨ ∃ f b z, (f, b) ∈ svg_files ∧ z ∈ widths ∧
      (l = "Skipping " +:+ f +:+ " - file not found"
       ∨ l = "Created synced-sports-" +:+ b +:+ "-" +:+ str_int z +:+ ".png"
       ∨ l = "Created synced-sports-" +:+ b +:+ "-" +:+ str_int z
               +:+ ".png (with ImageMagick)"
       ∨ l = "Could not convert " +:+ f +:+ " to " +:+ str_int z
               +:+ "px PNG - tools not available").

(** The path the specification writes for a pair, as text. *)
Definition spec_png (token : string) (width : Z) : string :=
  "SyncedSports-BrandPack/Logos/PNG/" +:+ str_int width +:+ "px/synced-sports-"
    +:+ token +:+ "-" +:+ str_int width +:+ ".png".

(** The availability of the sources, as the sweep sees it, is [pres]. *)
Definition sources_as (pres : string -> bool) (s : State) : Prop :=
  ∀ f b, (f, b) ∈ svg_files -> present s f = pres f.

(** The trace of the setup loop when every call returns. *)
Definition setup_trace : list Event := EMkdir ∘ size_dir <$> widths.

(** The trace of a run that gets through setup, with working input and
    output. *)
Definition run_trace (W : World) (s : State) : list Event :=
  setup_trace
    ++ EPrint opening_msg :: sweep_events W (present s) ++ [EPrint closing_msg].


Definition completes {A} (r : Outcome A) : bool :=
  match r with Normal _ _ => true | Raised _ _ => false end.

Definition exn_of {A} (r : Outcome A) : option PyExn :=
  match r with Normal _ _ => None | Raised e _ => Some e end.

(** How many times a line was written on standard output. *)
Definition notices (line : string) (tr : list Event) : nat :=
  count_occ String.string_dec (stdout_of tr) line.

(** The files the commands of a trace were asked to write. *)
Definition targets (tr : list Event) : list Path :=
  omap (fun e => match e with
                 | ERun argv => destination argv
                 | _ => None
                 end) tr.

(** The registry entries whose source is there, and those whose source
    is missing, in registry order. *)
Definition present_entries (s : State) : list (string * string) :=
  List.filter (fun e => present s e.1) svg_files.

Definition missing_entries (s : State) : list (string * string) :=
  List.filter (fun e => negb (present s e.1)) svg_files.

(** The Inkscape commands of the sweep, entry by entry and width by
    width, and the ImageMagick commands of the pairs whose Inkscape call
    did not get the script past it. *)
Definition expected_inkscape (s : State) : list (list string) :=
  present_entries s ≫= (fun e => inkscape_cmd e.1 e.2 <$> widths).

Definition expected_magick (W : World) (s : State) : list (list string) :=
  present_entries s ≫= (fun e =>
    magick_cmd e.1 e.2 <$>
      List.filter
        (fun z => negb (call_ok W (inkscape_cmd e.1 e.2 z) true)) widths).

(** ** Sample worlds and filesystems *)

Definition runs_inkscape (argv : list string) : bool :=
  match argv with
  | prog :: _ => String.eqb prog "inkscape"
  | [] => false
  end.

(** A strict codec: seven-bit bytes only. *)
Fixpoint ascii_only (s : string) : bool :=
  match s with
  | EmptyString => true
  | String c s' => (nat_of_ascii c <? 128)%nat && ascii_only s'
  end.

(** A well-behaved system around given tools: a child writes its file
    exactly when it exits with status zero, every path can be used, the
    standard output takes every line. *)
Definition world_of (tool : list string -> ProcResult) : World :=
  {| spawn := tool;
     wrote := fun argv =>
       match tool argv with Exits rc _ _ => rc =? 0 | Fails _ => false end;
     decodes := ascii_only;
     access := fun _ => Reachable;
     print_error := fun _ _ => None |}.

(** Neither rasteriser is installed. *)
Definition no_tools : World := world_of (fun _ => Fails FileNotFoundError).

(** Inkscape is missing, ImageMagick works. *)
Definition magick_only : World :=
  world_of (fun argv =>
    if runs_inkscape argv then Fails FileNotFoundError else Exits 0 "" "").

(** Inkscape reports an error on its stderr, ImageMagick chats and works. *)
Definition noisy_tools : World :=
  world_of (fun argv =>
    if runs_inkscape argv then Exits 1 "" "inkscape: cannot open display"
    else Exits 0 "rendering" "warning: density").

(** Inkscape works but writes a byte on its stdout that does not decode;
    ImageMagick works. *)
Definition undecodable_byte : string := String (ascii_of_nat 255) EmptyString.

Definition garbled_inkscape : World :=
  world_of (fun argv =>
    if runs_inkscape argv then Exits 0 undecodable_byte "" else Exits 0 "" "").

(** The user interrupts every wait on a child. *)
Definition interrupted : World := world_of (fun _ => Fails KeyboardInterrupt).

(** Nothing can be made anywhere; both tools would work. *)
Definition read_only : World :=
  {| spawn := fun _ => Exits 0 "" "";
     wrote := fun _ => true;
     decodes := ascii_only;
     access := fun _ => WriteRefused EACCES;
     print_error := fun _ _ => None |}.

(** Nothing can be made anywhere and neither tool is installed. *)
Definition read_only_no_tools : World :=
  {| spawn := fun _ => Fails FileNotFoundError;
     wrote := fun _ => false;
     decodes := ascii_only;
     access := fun _ => WriteRefused EACCES;
     print_error := fun _ _ => None |}.

(** The standard output is a pipe whose reader has gone; both tools
    work. *)
Definition closed_stdout : World :=
  {| spawn := fun _ => Exits 0 "" "";
     wrote := fun _ => true;
     decodes := ascii_only;
     access := fun _ => Reachable;
     print_error := fun _ _ => Some BrokenPipeError |}.


(** Only the icon is in the source directory. *)
Definition icon_only : State :=
  {| dirs := list_to_set (path_chain svg_dir);
     files := {[ svg_path "synced-sports-icon.svg" ]};
     trace := [] |}.

(** Every registered source is there. *)
Definition all_sources : State :=
  {| dirs := list_to_set (path_chain svg_dir);
     files := list_to_set (svg_path <$> dict_keys svg_files);
     trace := [] |}.

(** The icon is there and the six size directories have been made. *)
Definition icon_and_size_dirs : State :=
  {| dirs := list_to_set (path_chain svg_dir)
             ∪ list_to_set (path_chain png_dir)
             ∪ list_to_set (size_dir <$> widths);
     files := {[ svg_path "synced-sports-icon.svg" ]};
     trace := [] |}.

(** ** Basic facts *)

Lemma widths_eq : widths = [32; 64; 128; 256; 512; 1024].
Proof. reflexivity. Qed.

Lemma tokens_eq :
  tokens = ["primary"; "horizontal"; "icon"; "waves"; "black"; "white"; "wordmark"].
Proof. reflexivity. Qed.

Lemma normal_of_completes (r : Outcome unit) :
  completes r = true -> r = Normal tt (state_of r).
Proof. destruct r as [[] ?| ? ?]; [reflexivity | discriminate]. Qed.

Lemma raised_of_exn {A} (r : Outcome A) e :
  exn_of r = Some e -> r = Raised e (state_of r).
Proof. destruct r; [discriminate | by intros [= ->]]. Qed.

Lemma state_eq (s t : State) :
  dirs s = dirs t -> files s = files t -> trace s = trace t -> s = t.
Proof. destruct s, t; simpl; intros -> -> ->; reflexivity. Qed.

Lemma written_nil W : written W [] = ∅.
Proof. reflexivity. Qed.

Lemma written_app W evs evs' :
  written W (evs ++ evs') = written W evs ∪ written W evs'.
Proof. unfold written. by rewrite fmap_app, union_list_app_L. Qed.

Lemma written_print W line : written W [EPrint line] = ∅.
Proof. unfold written. cbn. apply (right_id_L ∅ (∪)). Qed.

Lemma elem_of_written W evs p :
  p ∈ written W evs <-> ∃ argv, ERun argv ∈ evs ∧ p ∈ child_writes W argv.
Proof.
  unfold written. rewrite elem_of_union_list. split.
  - intros (X & HX & Hp). apply list_elem_of_fmap in HX as (ev & -> & Hev).
    destruct ev; try by apply elem_of_empty in Hp. eauto.
  - intros (argv & Hev & Hp). exists (child_writes W argv). split; [| done].
    apply list_elem_of_fmap. by exists (ERun argv).
Qed.

Lemma emit_nil s : emit [] ∅ s = s.
Proof.
  apply state_eq; simpl; [done | apply (right_id_L ∅ (∪)) | apply app_nil_r].
Qed.

Lemma emit_emit e1 f1 e2 f2 s :
  emit e2 f2 (emit e1 f1 s) = emit (e1 ++ e2) (f1 ∪ f2) s.
Proof.
  apply state_eq; simpl;
    [done | symmetry; apply (assoc_L (∪)) | symmetry; apply app_assoc].
Qed.

Lemma log_emit e s : log e s = emit [e] ∅ s.
Proof. apply state_eq; simpl; [done | symmetry; apply (right_id_L ∅ (∪)) | done]. Qed.

Lemma finish_nil W s : finish W ([], None) s = Normal tt s.
Proof. unfold finish. cbn [fst snd]. by rewrite written_nil, emit_nil. Qed.

(** The nested loops over the catalogue visit [widths] in order. *)
Lemma sizes_loop_flat (body : Z -> M unit) s :
  for_each (dict_keys sizes)
    (fun category => l <- dict_getitem sizes category ;; for_each l body) s
  = for_each widths body s.
Proof.
  cbv.
  repeat (match goal with
          | |- context [match body ?z ?t with _ => _ end] =>
              destruct (body z t) as [[] ?|]; [| reflexivity]
          end).
  reflexivity.
Qed.

(** ** Loops and their descriptions *)

(** A loop whose every iteration does what its description says, and
    keeps an invariant, does what the threaded description says. *)
Lemma for_each_thread {A} W (P : State -> Prop) (body : A -> M unit)
    (step : list Event -> A -> Step) (l : list A) :
  (∀ x s, x ∈ l -> P s ->
     body x s = finish W (step (trace s) x) s
     ∧ P (state_of (finish W (step (trace s) x) s))) ->
  ∀ s, P s ->
    for_each l body s = finish W (thread step (trace s) l) s
    ∧ P (state_of (finish W (thread step (trace s) l) s)).
Proof.
  induction l as [| x l IH]; intros Hbody s HP.
  - cbn [for_each thread]. rewrite finish_nil. done.
  - destruct (Hbody x s) as [Hx HPx]; [left | done |].
    cbn [for_each thread]. unfold bind. rewrite Hx.
    destruct (step (trace s) x) as [evs [e |]] eqn:Hstep.
    + unfold finish in *. cbn [fst snd] in *. done.
    + unfold finish in Hx, HPx. cbn [fst snd state_of] in Hx, HPx.
      unfold finish at 1. cbn [fst snd].
      destruct (IH (fun y t Hy => Hbody y t (list_elem_of_further _ _ _ Hy))
                  _ HPx) as [Hl HPl].
      cbn [emit trace] in Hl, HPl. rewrite Hl.
      unfold finish in *. cbn [fst snd] in *.
      destruct (thread step (trace s ++ evs) l).2;
        rewrite emit_emit, <- written_app in *; done.
Qed.

(** Every event of a loop is an event of one of its iterations. *)
Lemma thread_elem {A} (step : list Event -> A -> Step) tr (l : list A) ev :
  ev ∈ (thread step tr l).1 -> ∃ x tr', x ∈ l ∧ ev ∈ (step tr' x).1.
Proof.
  revert tr. induction l as [| x l IH]; intros tr; cbn [thread].
  - by intros ?%elem_of_nil.
  - destruct (step tr x) as [evs [e |]] eqn:Hstep; cbn [fst].
    + intros Hev. exists x, tr. split; [left |]. by rewrite Hstep.
    + intros [Hev | Hev]%elem_of_app.
      * exists x, tr. split; [left |]. by rewrite Hstep.
      * destruct (IH _ Hev) as (y & tr' & Hy & Hev'). exists y, tr'.
        split; [by right | done].
Qed.

(** In a loop that ends without an exception every iteration did, and
    its events sit together in the events of the loop. *)
Lemma thread_normal_each {A} (step : list Event -> A -> Step) tr (l : list A) x :
  (thread step tr l).2 = None -> x ∈ l ->
  ∃ pre post,
    (thread step tr l).1 = pre ++ (step (tr ++ pre) x).1 ++ post
    ∧ (step (tr ++ pre) x).2 = None.
Proof.
  revert tr. induction l as [| y l IH]; intros tr Hn Hx.
  - by apply elem_of_nil in Hx.
  - cbn [thread] in *. destruct (step tr y) as [evs [e |]] eqn:Hstep;
      cbn [fst snd] in *; [done |].
    apply elem_of_cons in Hx as [-> | Hx].
    + exists [], (thread step (tr ++ evs) l).1.
      rewrite app_nil_r, Hstep. done.
    + destruct (IH _ Hn Hx) as (pre & post & Heq & Hnone).
      exists (evs ++ pre), post. rewrite Heq, !app_assoc in *. done.
Qed.

(** A reading of the events that goes through concatenation and gives,
    for every iteration that ends without an exception, a list that does
    not depend on the trace, gives the concatenation of these lists for
    a loop that ends without an exception. *)
Lemma thread_normal_bind {A C} (step : list Event -> A -> Step)
    (h : list Event -> list C) (g : A -> list C) tr (l : list A) :
  h [] = [] -> (∀ a b, h (a ++ b) = h a ++ h b) ->
  (∀ tr' x, x ∈ l -> (step tr' x).2 = None -> h (step tr' x).1 = g x) ->
  (thread step tr l).2 = None ->
  h (thread step tr l).1 = l ≫= g.
Proof.
  intros Hnil Happ Hg. revert tr. induction l as [| x l IH]; intros tr Hn.
  - exact Hnil.
  - cbn [thread] in *. destruct (step tr x) as [evs [e |]] eqn:Hstep;
      cbn [fst snd] in *; [done |].
    rewrite Happ, bind_cons, IH; [| | done].
    + f_equal. specialize (Hg tr x). rewrite Hstep in Hg. apply Hg; [left | done].
    + intros tr' y Hy. apply Hg. by right.
Qed.

(** Two descriptions that agree on every iteration agree on the loop. *)
Lemma thread_ext {A} (step step' : list Event -> A -> Step) tr (l : list A) :
  (∀ tr' x, x ∈ l -> step tr' x = step' tr' x) ->
  thread step tr l = thread step' tr l.
Proof.
  revert tr. induction l as [| x l IH]; intros tr Hext; [reflexivity |].
  cbn [thread]. rewrite <- (Hext tr x) by left.
  destruct (step tr x) as [evs [e |]]; [reflexivity |].
  rewrite IH; [reflexivity |]. intros tr' y Hy. apply Hext. by right.
Qed.

(** A loop whose iterations neither raise nor look at the trace. *)
Lemma thread_pure {A} (step : list Event -> A -> Step) (g : A -> list Event)
    tr (l : list A) :
  (∀ tr' x, x ∈ l -> step tr' x = (g x, None)) ->
  thread step tr l = (l ≫= g, None).
Proof.
  revert tr. induction l as [| x l IH]; intros tr Hg; [reflexivity |].
  cbn [thread]. rewrite (Hg tr x) by left.
  rewrite IH; [by rewrite bind_cons |]. intros tr' y Hy. apply Hg. by right.
Qed.
Ltac same_state :=
  apply state_eq; unfold written; simpl;
  [ reflexivity
  | rewrite ?(right_id_L ∅ (∪)), ?(left_id_L ∅ (∪)), <- ?(assoc_L (∪)); reflexivity
  | rewrite <- ?app_assoc; reflexivity ].

Ltac simpl_state :=
  cbn [state_of dirs files trace log add_dirs add_files emit fresh] in *.

(** ** Facts about the fixed configuration, by evaluation *)

Ltac by_evaluation := apply (bool_decide_unpack _); vm_compute; exact I.

Lemma destination_of_cmds f b z :
  (f, b) ∈ svg_files -> z ∈ widths ->
  destination (inkscape_cmd f b z) = Some (output_path b z)
  ∧ destination (magick_cmd f b z) = Some (output_path b z).
Proof.
  intros Hfb Hz.
  assert (H : Forall (fun e : string * string => Forall (fun z =>
            destination (inkscape_cmd e.1 e.2 z) = Some (output_path e.2 z)
            ∧ destination (magick_cmd e.1 e.2 z) = Some (output_path e.2 z))
            widths) svg_files) by by_evaluation.
  rewrite Forall_forall in H. specialize (H _ Hfb).
  rewrite Forall_forall in H. exact (H _ Hz).
Qed.

(** No source file is a raster output or one of the directories made. *)
Lemma sources_apart f b :
  (f, b) ∈ svg_files ->
  (∀ b' z, b' ∈ tokens -> z ∈ widths -> svg_path f ≠ output_path b' z)
  ∧ (∀ z, z ∈ widths -> svg_path f ∉ path_chain (size_dir z)).
Proof.
  intros Hfb.
  assert (H : Forall (fun e : string * string =>
            Forall (fun b' => Forall (fun z =>
              svg_path e.1 ≠ output_path b' z) widths) tokens
            ∧ Forall (fun z => svg_path e.1 ∉ path_chain (size_dir z)) widths)
            svg_files) by by_evaluation.
  rewrite Forall_forall in H. destruct (H _ Hfb) as [H1 H2]. simpl in *.
  split.
  - intros b' z Hb' Hz. rewrite Forall_forall in H1. specialize (H1 _ Hb').
    rewrite Forall_forall in H1. exact (H1 _ Hz).
  - intros z Hz. rewrite Forall_forall in H2. exact (H2 _ Hz).
Qed.

Lemma token_of_entry f b : (f, b) ∈ svg_files -> b ∈ tokens.
Proof. intros H. unfold tokens. apply list_elem_of_fmap. by exists (f, b). Qed.

(** Distinct pairs have distinct command lines and distinct outputs, and
    no Inkscape command line is an ImageMagick one. *)
Lemma cmds_apart f b z f' b' z' :
  (f, b) ∈ svg_files -> z ∈ widths -> (f', b') ∈ svg_files -> z' ∈ widths ->
  inkscape_cmd f b z ≠ magick_cmd f' b' z'
  ∧ (inkscape_cmd f b z = inkscape_cmd f' b' z' -> (f, b, z) = (f', b', z'))
  ∧ (magick_cmd f b z = magick_cmd f' b' z' -> (f, b, z) = (f', b', z'))
  ∧ (output_path b z = output_path b' z' -> (f, b, z) = (f', b', z'))
  ∧ (path_str (svg_path f) ∈ inkscape_cmd f' b' z' -> f = f')
  ∧ (path_str (svg_path f) ∈ magick_cmd f' b' z' -> f = f').
Proof.
  intros Hfb Hz Hfb' Hz'.
  assert (H : Forall (fun e : string * string => Forall (fun z =>
            Forall (fun e' : string * string => Forall (fun z' =>
              inkscape_cmd e.1 e.2 z ≠ magick_cmd e'.1 e'.2 z'
              ∧ (inkscape_cmd e.1 e.2 z = inkscape_cmd e'.1 e'.2 z' ->
                 (e.1, e.2, z) = (e'.1, e'.2, z'))
              ∧ (magick_cmd e.1 e.2 z = magick_cmd e'.1 e'.2 z' ->
                 (e.1, e.2, z) = (e'.1, e'.2, z'))
              ∧ (output_path e.2 z = output_path e'.2 z' ->
                 (e.1, e.2, z) = (e'.1, e'.2, z'))
              ∧ (path_str (svg_path e.1) ∈ inkscape_cmd e'.1 e'.2 z' -> e.1 = e'.1)
              ∧ (path_str (svg_path e.1) ∈ magick_cmd e'.1 e'.2 z' -> e.1 = e'.1))
            widths) svg_files) widths) svg_files) by by_evaluation.
  rewrite Forall_forall in H. specialize (H _ Hfb).
  rewrite Forall_forall in H. specialize (H _ Hz).
  rewrite Forall_forall in H. specialize (H _ Hfb').
  rewrite Forall_forall in H. exact (H _ Hz').
Qed.

Lemma svg_path_nonempty f : svg_path f ≠ [].
Proof. unfold svg_path, path_div. by vm_compute. Qed.

Lemma size_dir_nonempty z : size_dir z ≠ [].
Proof. unfold size_dir, path_div. by vm_compute. Qed.

(** ** The conversion phase *)

Ltac split_prints W :=
  repeat (cbn [andb orb negb fst snd cp_returncode trace log add_files];
          match goal with
          | |- context [print_error W ?t ?l] =>
              let E := fresh "Hpr" in
              destruct (print_error W t l) eqn:E;
              rewrite ?(bool_decide_eq_true_2 (@None PyExn = None))
                by reflexivity;
              repeat match goal with
                     | |- context [bool_decide (Some ?e = None)] =>
                         rewrite (bool_decide_eq_false_2 (Some e = None))
                           by discriminate
                     end
          end).

(** One pair, whatever the world does: the attempt is what
    [convert_step] describes. *)
Lemma convert_spec W f b z s :
  convert W f b z s = finish W (convert_step W (trace s) f b z) s.
Proof.
  unfold convert, try_except, bind, subprocess_run, print, raise,
    convert_step, call_ok, finish.
  cbv zeta.
  destruct (spawn W (inkscape_cmd f b z)) as [rc out err | e];
    [destruct (rc =? 0) eqn:Hrc; destruct (decodes W out);
     destruct (decodes W err) |];
    (destruct (spawn W (magick_cmd f b z)) as [rc' out' err' | e'];
       [destruct (rc' =? 0) eqn:Hrc' |]);
    cbn [andb orb negb cp_returncode trace log add_files];
    rewrite ?Hrc; cbn [trace log add_files]; split_prints W;
    cbn [andb orb negb fst snd trace log add_files];
    f_equal; same_state.
Qed.

(** The four ways one pair can go. *)
Lemma convert_step_cases W tr f b z :
  (convert_step W tr f b z
   = ([ERun (inkscape_cmd f b z); EPrint (created_msg b z)], None)
   ∧ call_ok W (inkscape_cmd f b z) true = true
   ∧ print_error W (tr ++ [ERun (inkscape_cmd f b z)]) (created_msg b z) = None)
  ∨ ((call_ok W (inkscape_cmd f b z) true = false
      ∨ print_error W (tr ++ [ERun (inkscape_cmd f b z)]) (created_msg b z)
        ≠ None)
     ∧ ((convert_step W tr f b z
         = ([ERun (inkscape_cmd f b z); ERun (magick_cmd f b z);
             EPrint (created_magick_msg b z)], None)
         ∧ call_ok W (magick_cmd f b z) false = true)
        ∨ ((call_ok W (magick_cmd f b z) false = false
            ∨ print_error W
                ((tr ++ [ERun (inkscape_cmd f b z)])
                   ++ [ERun (magick_cmd f b z)])
                (created_magick_msg b z) ≠ None)
           ∧ (convert_step W tr f b z
              = ([ERun (inkscape_cmd f b z); ERun (magick_cmd f b z);
                  EPrint (failed_msg f z)], None)
              ∨ ∃ e, convert_step W tr f b z
                     = ([ERun (inkscape_cmd f b z);
                         ERun (magick_cmd f b z)], Some e)
                     ∧ print_error W
                         ((tr ++ [ERun (inkscape_cmd f b z)])
                            ++ [ERun (magick_cmd f b z)])
                         (failed_msg f z) = Some e)))).
Proof.
  unfold convert_step. cbv zeta.
  assert (Hbd : ∀ o : option PyExn,
            bool_decide (o = None) = match o with None => true | _ => false end).
  { intros [e |]; [by apply bool_decide_eq_false_2 | by apply bool_decide_eq_true_2]. }
  rewrite !Hbd.
  destruct (call_ok W (inkscape_cmd f b z) true) eqn:Hi;
    [destruct (print_error W (tr ++ [ERun (inkscape_cmd f b z)])
                 (created_msg b z)) as [e1 |] eqn:Hp1 |];
    cbn [andb];
    [ right; split; [right; discriminate |]
    | left; split; [reflexivity | split; reflexivity]
    | right; split; [left; reflexivity |] ];
    (destruct (call_ok W (magick_cmd f b z) false) eqn:Hm;
       [destruct (print_error W
                    ((tr ++ [ERun (inkscape_cmd f b z)])
                       ++ [ERun (magick_cmd f b z)])
                    (created_magick_msg b z)) as [e2 |] eqn:Hp2 |];
       cbn [andb];
       [ right; split; [right; discriminate |]
       | left; split; reflexivity
       | right; split; [left; reflexivity |] ];
       (destruct (print_error W
                    ((tr ++ [ERun (inkscape_cmd f b z)])
                       ++ [ERun (magick_cmd f b z)])
                    (failed_msg f z)) as [e3 |] eqn:Hp3;
        [right; exists e3; split; reflexivity | left; reflexivity])).
Qed.

Lemma event_of_convert_step W tr f b z ev :
  ev ∈ (convert_step W tr f b z).1 ->
  ev = ERun (inkscape_cmd f b z) ∨ ev = ERun (magick_cmd f b z)
  ∨ (ev = EPrint (created_msg b z)
     ∧ call_ok W (inkscape_cmd f b z) true = true)
  ∨ (ev = EPrint (created_magick_msg b z)
     ∧ call_ok W (magick_cmd f b z) false = true)
  ∨ ev = EPrint (failed_msg f z).
Proof.
  destruct (convert_step_cases W tr f b z)
    as [(-> & ? & _) | [_ [[-> ?] | [_ [-> | (e & -> & _)]]]]];
    cbn [fst]; rewrite ?elem_of_cons, ?elem_of_nil; intuition.
Qed.

Lemma run_of_events_of_widths W tr f b (l : list Z) argv :
  ERun argv ∈ (thread (fun tr' z => convert_step W tr' f b z) tr l).1 ->
  ∃ z, z ∈ l ∧ (argv = inkscape_cmd f b z ∨ argv = magick_cmd f b z).
Proof.
  intros (z & tr' & Hz & Hev)%thread_elem. exists z. split; [done |].
  apply event_of_convert_step in Hev
    as [[= ->] | [[= ->] | [[? _] | [[? _] | ?]]]]; try done; eauto.
Qed.

Lemma run_of_entry_step W pres tr f b argv :
  ERun argv ∈ (entry_step W pres tr (f, b)).1 ->
  pres f = true
  ∧ ∃ z, z ∈ widths ∧ (argv = inkscape_cmd f b z ∨ argv = magick_cmd f b z).
Proof.
  unfold entry_step. cbn [fst snd].
  destruct (access W (svg_path f)); try (by intros ?%elem_of_nil);
    (destruct (pres f);
     [intros ?%run_of_events_of_widths; done |
      destruct (print_error W tr (skipping_msg f)); cbn [fst];
      rewrite ?elem_of_cons, ?elem_of_nil; intuition discriminate]).
Qed.

Lemma run_of_sweep_step W pres tr argv :
  ERun argv ∈ (sweep_step W pres tr).1 ->
  ∃ f b z, (f, b) ∈ svg_files ∧ z ∈ widths ∧ pres f = true
           ∧ (argv = inkscape_cmd f b z ∨ argv = magick_cmd f b z).
Proof.
  intros ([f b] & tr' & Hfb & Hev)%thread_elem.
  apply run_of_entry_step in Hev as (Hp & z & Hz & Hargv). eauto 10.
Qed.

(** What the children of configuration commands wrote is output files. *)
Lemma written_of_config_runs W evs p :
  (∀ argv, ERun argv ∈ evs -> config_run argv) ->
  p ∈ written W evs ->
  ∃ f b z, (f, b) ∈ svg_files ∧ z ∈ widths ∧ p = output_path b z
           ∧ ((ERun (inkscape_cmd f b z) ∈ evs
               ∧ wrote W (inkscape_cmd f b z) = true)
              ∨ (ERun (magick_cmd f b z) ∈ evs
                 ∧ wrote W (magick_cmd f b z) = true)).
Proof.
  intros Hcfg (argv & Hev & Hp)%elem_of_written.
  destruct (Hcfg argv Hev) as (f & b & z & Hfb & Hz & Hargv).
  destruct (destination_of_cmds f b z Hfb Hz) as [Hi Hm].
  exists f, b, z. split; [done |]. split; [done |].
  unfold child_writes in Hp.
  destruct (wrote W argv) eqn:Hw; [| by apply elem_of_empty in Hp].
  destruct Hargv as [-> | ->]; rewrite ?Hi, ?Hm in Hp;
    apply elem_of_singleton in Hp as ->; eauto.
Qed.

Lemma present_emit evs fs s f :
  svg_path f ∉ fs -> present (emit evs fs s) f = present s f.
Proof.
  intros Hf. unfold present. apply bool_decide_ext. simpl.
  rewrite elem_of_union. tauto.
Qed.

Lemma sources_as_emit W pres evs s :
  (∀ argv, ERun argv ∈ evs -> config_run argv) ->
  sources_as pres s -> sources_as pres (emit evs (written W evs) s).
Proof.
  intros Hcfg Hs f b Hfb. rewrite present_emit; [by eapply Hs |].
  intros (f' & b' & z & Hfb' & Hz & Heq & _)%written_of_config_runs; [| done].
  destruct (sources_apart f b Hfb) as [Hne _].
  exact (Hne b' z (token_of_entry _ _ Hfb') Hz Heq).
Qed.

Lemma state_of_finish W st s :
  state_of (finish W st s) = emit st.1 (written W st.1) s.
Proof. unfold finish. by destruct st.2. Qed.

Lemma process_svg_spec W pres e s :
  e ∈ svg_files -> sources_as pres s ->
  process_svg W e s = finish W (entry_step W pres (trace s) e) s
  ∧ sources_as pres (state_of (finish W (entry_step W pres (trace s) e) s)).
Proof.
  intros He HP. split.
  - destruct e as [f b]. unfold process_svg, bind, path_exists, entry_step.
    cbn [fst snd].
    assert (Hex : bool_decide (svg_path f = [] ∨ svg_path f ∈ dirs s
                               ∨ svg_path f ∈ files s) = pres f).
    { rewrite <- (HP f b He). unfold present. apply bool_decide_ext.
      pose proof (svg_path_nonempty f). tauto. }
    assert (Hgo : (if negb (pres f) then print W (skipping_msg f)
                   else for_each (dict_keys sizes) (fun category =>
                          l <- dict_getitem sizes category ;;
                          for_each l (fun size => convert W f b size))) s
                  = finish W
                      (if pres f
                       then thread (fun tr' z => convert_step W tr' f b z)
                              (trace s) widths
                       else match print_error W (trace s) (skipping_msg f) with
                            | Some ex => ([], Some ex)
                            | None => ([EPrint (skipping_msg f)], None)
                            end) s).
    { destruct (pres f); cbn [negb].
      - etransitivity; [exact (sizes_loop_flat (convert W f b) s) |].
        apply (for_each_thread W (fun _ => True) (convert W f b)
                 (fun tr' z => convert_step W tr' f b z) widths); [| done].
        intros z t _ _. split; [apply convert_spec | done].
      - unfold print, finish.
        destruct (print_error W (trace s) (skipping_msg f)); cbn [fst snd].
        + by rewrite written_nil, emit_nil.
        + by rewrite written_print, log_emit. }
    destruct (access W (svg_path f)); rewrite ?Hex; try exact Hgo.
    unfold finish. cbn [fst snd]. by rewrite written_nil, emit_nil.
  - rewrite state_of_finish. apply sources_as_emit; [| done].
    destruct e as [f b]. intros argv (_ & z & Hz & Hargv)%run_of_entry_step.
    exists f, b, z. done.
Qed.

Lemma sweep_spec W pres s :
  sources_as pres s ->
  for_each svg_files (process_svg W) s
  = finish W (sweep_step W pres (trace s)) s.
Proof.
  intros HP.
  apply (for_each_thread W (sources_as pres) (process_svg W)
           (entry_step W pres) svg_files); [| done].
  intros e t He Ht. by apply process_svg_spec.
Qed.

(** ** The setup phase *)

Lemma elem_of_path_chain (p q : Path) :
  q ∈ path_chain p <-> ∃ k, (1 ≤ k ≤ length p)%nat ∧ q = take k p.
Proof.
  unfold path_chain. rewrite list_elem_of_fmap. split.
  - intros (k & -> & Hk). apply list_elem_of_In, in_seq in Hk.
    exists k. split; [lia | done].
  - intros (k & Hk & ->). exists k. split; [done |].
    apply list_elem_of_In, in_seq. lia.
Qed.

Lemma path_in_own_chain (p : Path) : p ≠ [] -> p ∈ path_chain p.
Proof.
  intros Hp. apply elem_of_path_chain. exists (length p). split.
  - destruct p; [done | simpl; lia].
  - by rewrite firstn_all.
Qed.

Lemma chain_of_parent (p q : Path) :
  q ∈ path_chain (parent p) -> q ∈ path_chain p.
Proof.
  unfold parent. rewrite removelast_firstn_len.
  rewrite !elem_of_path_chain. intros (k & Hk & ->).
  rewrite length_take in Hk. exists k. split; [lia |].
  rewrite take_take. f_equal. lia.
Qed.

Lemma os_mkdir_cases W p s :
  (os_mkdir W p s = Normal tt (add_dirs {[ p ]} s) ∧ p ≠ [])
  ∨ ∃ e, os_mkdir W p s = Raised e s.
Proof.
  unfold os_mkdir. destruct (access W p); eauto.
  case_bool_decide as H1; [eauto |].
  case_bool_decide; [eauto |]. case_bool_decide; [| eauto].
  left. split; [done |]. intros ->. apply H1. by left.
Qed.

(** What [Path.mkdir] leaves behind, whatever its flags and its end:
    the files and the trace as they were, no directory gone, and new
    directories only along the path. *)
Lemma path_mkdir_frame W fuel p parents exist_ok s :
  files (state_of (path_mkdir W fuel p parents exist_ok s)) = files s
  ∧ trace (state_of (path_mkdir W fuel p parents exist_ok s)) = trace s
  ∧ dirs s ⊆ dirs (state_of (path_mkdir W fuel p parents exist_ok s))
  ∧ (∀ q, q ∈ dirs (state_of (path_mkdir W fuel p parents exist_ok s)) ->
       q ∈ dirs s ∨ q ∈ path_chain p)
  ∧ (completes (path_mkdir W fuel p parents exist_ok s) = true ->
     p = [] ∨ p ∈ dirs (state_of (path_mkdir W fuel p parents exist_ok s))).
Proof.
  revert p parents exist_ok s.
  induction fuel as [| fuel IH]; intros p parents exist_ok s;
    cbn [path_mkdir];
    (destruct (os_mkdir_cases W p s) as [[-> Hp] | [e ->]];
     [ simpl_state; cbn [completes];
       split; [done |]; split; [done |];
       split; [apply union_subseteq_l |];
       split; [intros q [? | ->%elem_of_singleton]%elem_of_union;
                 [by left | right; by apply path_in_own_chain] |];
       intros _; right; apply elem_of_union; right; by apply elem_of_singleton
     | ]).
  - destruct (is_FileNotFoundError e).
    + destruct (negb parents || bool_decide (parent p = p)); simpl_state;
        cbn [completes]; (repeat split; [done .. | intros q ?; by left | done]).
    + destruct (is_OSError e); [destruct (negb exist_ok) |]; simpl_state;
        cbn [completes];
        try (repeat split; [done .. | intros q ?; by left | done]).
      unfold is_dir. destruct (access W p); simpl_state; cbn [completes];
        try (repeat split; [done .. | intros q ?; by left | done]);
        (case_bool_decide as Hd; cbn [negb]; simpl_state; cbn [completes];
         (repeat split; [done .. | intros q ?; by left | try done]);
         intros _; destruct Hd; eauto).
  - destruct (is_FileNotFoundError e).
    + destruct (negb parents || bool_decide (parent p = p)); simpl_state;
        cbn [completes];
        try (repeat split; [done .. | intros q ?; by left | done]).
      unfold bind.
      destruct (IH (parent p) true true s) as (Hf1 & Ht1 & Hd1 & Hn1 & _).
      destruct (path_mkdir W fuel (parent p) true true s) as [[] s1 | e1 s1];
        simpl_state.
      * destruct (IH p false exist_ok s1) as (Hf2 & Ht2 & Hd2 & Hn2 & Hc2).
        split; [congruence |]. split; [congruence |].
        split; [etransitivity; eassumption |]. split; [| exact Hc2].
        intros q Hq. destruct (Hn2 q Hq) as [Hq1 | ?]; [| by right].
        destruct (Hn1 q Hq1) as [? | ?]; [by left |].
        right. by apply chain_of_parent.
      * cbn [completes]. split; [done |]. split; [done |]. split; [done |].
        split; [| done]. intros q Hq. destruct (Hn1 q Hq); [by left |].
        right. by apply chain_of_parent.
    + destruct (is_OSError e); [destruct (negb exist_ok) |]; simpl_state;
        cbn [completes];
        try (repeat split; [done .. | intros q ?; by left | done]).
      unfold is_dir. destruct (access W p); simpl_state; cbn [completes];
        try (repeat split; [done .. | intros q ?; by left | done]);
        (case_bool_decide as Hd; cbn [negb]; simpl_state; cbn [completes];
         (repeat split; [done .. | intros q ?; by left | try done]);
         intros _; destruct Hd; eauto).
Qed.

(** Without [parents] the call never recurses. *)
Lemma path_mkdir_no_parents W fuel fuel' p exist_ok s :
  path_mkdir W fuel p false exist_ok s = path_mkdir W fuel' p false exist_ok s.
Proof. by destruct fuel, fuel'. Qed.

(** As many steps as the path has parts are enough: more change nothing. *)
Lemma path_mkdir_fuel W fuel p parents exist_ok s :
  (length p <= fuel)%nat ->
  path_mkdir W fuel p parents exist_ok s
  = path_mkdir W (length p) p parents exist_ok s.
Proof.
  revert p parents exist_ok s.
  induction fuel as [| fuel IH]; intros p parents exist_ok s Hle.
  - destruct p; [reflexivity | cbn in Hle; lia].
  - destruct parents; [| apply path_mkdir_no_parents].
    destruct p as [| a p] using rev_ind; [by destruct fuel |].
    clear IHp. rewrite length_app in *. cbn [length] in *.
    replace (length p + 1)%nat with (S (length p)) by lia.
    cbn [path_mkdir]. destruct (os_mkdir W (p ++ [a]) s) as [[] s' | e s'];
      [reflexivity |].
    destruct (is_FileNotFoundError e); [| reflexivity].
    destruct (negb true || bool_decide (parent (p ++ [a]) = p ++ [a]));
      [reflexivity |].
    unfold bind, parent. rewrite removelast_last.
    rewrite (IH p true true s') by lia.
    destruct (path_mkdir W (length p) p true true s') as [[] s'' | e' s''];
      [apply path_mkdir_no_parents | reflexivity].
Qed.

Lemma mkdir_p_frame W p s :
  files (state_of (mkdir_p W p s)) = files s
  ∧ trace (state_of (mkdir_p W p s)) = trace s ++ [EMkdir p]
  ∧ dirs s ⊆ dirs (state_of (mkdir_p W p s))
  ∧ (∀ q, q ∈ dirs (state_of (mkdir_p W p s)) ->
       q ∈ dirs s ∨ q ∈ path_chain p)
  ∧ (completes (mkdir_p W p s) = true -> p ≠ [] ->
     p ∈ dirs (state_of (mkdir_p W p s))).
Proof.
  unfold mkdir_p.
  destruct (path_mkdir_frame W (length p) p true true (log (EMkdir p) s))
    as (Hf & Ht & Hd & Hn & Hc).
  simpl_state. repeat (split; [done |]).
  intros Hok Hp. by destruct (Hc Hok).
Qed.

Lemma path_mkdir_head W fuel p s e :
  os_mkdir W p s = Raised e s ->
  is_FileNotFoundError e = false -> is_OSError e = true ->
  path_mkdir W fuel p true true s
  = match is_dir W p s with
    | Normal d s' => if negb d then Raised e s' else Normal tt s'
    | Raised e' s' => Raised e' s'
    end.
Proof. intros He Hn Ho. destruct fuel; cbn [path_mkdir]; by rewrite He, Hn, Ho. Qed.

Lemma exn_of_errno_class why :
  is_FileNotFoundError (exn_of_errno why) = false
  ∧ is_OSError (exn_of_errno why) = true.
Proof. by destruct why. Qed.

(** A directory that is there and can be looked at is no error and
    nothing changes. *)
Lemma mkdir_p_existing W p s :
  p ∈ dirs s -> can_look W p = true ->
  mkdir_p W p s = Normal tt (log (EMkdir p) s).
Proof.
  intros Hin Hlook. unfold mkdir_p, can_look in *.
  assert (Hos : ∃ e, os_mkdir W p (log (EMkdir p) s)
                     = Raised e (log (EMkdir p) s)
                     ∧ is_FileNotFoundError e = false ∧ is_OSError e = true).
  { unfold os_mkdir. destruct (access W p) as [| why | why]; [| | done].
    - rewrite bool_decide_eq_true_2 by (right; left; exact Hin). eauto.
    - exists (exn_of_errno why). split; [done |]. apply exn_of_errno_class. }
  destruct Hos as (e & Hos & Hn & Ho).
  rewrite (path_mkdir_head W _ p _ e Hos Hn Ho). unfold is_dir.
  destruct (access W p); [| | done];
    by rewrite bool_decide_eq_true_2 by (right; exact Hin).
Qed.

(** A path that cannot be looked at makes the call raise, directory or
    not. *)
Lemma mkdir_p_unreachable W p s why :
  access W p = Unreachable why ->
  mkdir_p W p s = Raised (exn_of_errno why) (log (EMkdir p) s).
Proof.
  intros Hacc. unfold mkdir_p.
  destruct (exn_of_errno_class why) as [Hn Ho].
  rewrite (path_mkdir_head W _ p _ (exn_of_errno why)); [| | done | done].
  - unfold is_dir. by rewrite Hacc.
  - unfold os_mkdir. by rewrite Hacc.
Qed.

Lemma mkdir_p_normal_can_look W p s s' :
  mkdir_p W p s = Normal tt s' -> can_look W p = true.
Proof.
  intros Hn. unfold can_look. destruct (access W p) as [| |why] eqn:Hacc; try done.
  by rewrite (mkdir_p_unreachable W p s why Hacc) in Hn.
Qed.

(** Where a run of [mkdir] calls over a list of widths can end. *)
Lemma mkdirs_spec W (l : list Z) s :
  let r := for_each l (fun z => mkdir_p W (size_dir z)) s in
  files (state_of r) = files s
  ∧ dirs s ⊆ dirs (state_of r)
  ∧ (∀ p, p ∈ dirs (state_of r) ->
        p ∈ dirs s ∨ ∃ z, z ∈ l ∧ p ∈ path_chain (size_dir z))
  ∧ match r with
    | Normal _ s' =>
        trace s' = trace s ++ (EMkdir ∘ size_dir <$> l)
        ∧ (∀ z, z ∈ l ->
             size_dir z ∈ dirs s' ∧ can_look W (size_dir z) = true)
    | Raised e s' =>
        (∃ k, trace s' = trace s ++ (EMkdir ∘ size_dir <$> take k l))
        ∧ ∃ z t, z ∈ l ∧ mkdir_p W (size_dir z) t = Raised e s'
                 ∧ last (trace s') = Some (EMkdir (size_dir z))
    end.
Proof.
  revert s. induction l as [| z l IH]; intros s; cbv zeta; cbn [for_each].
  - cbn. rewrite app_nil_r. split; [done |]. split; [done |].
    split; [intros p ?; by left |]. split; [done |].
    intros ? []%elem_of_nil.
  - unfold bind.
    destruct (mkdir_p_frame W (size_dir z) s) as (Hf1 & Ht1 & Hd1 & Hn1 & Hc1).
    destruct (mkdir_p W (size_dir z) s) as [[] s1 | e s1] eqn:Hz;
      simpl_state; cbn [completes] in Hc1.
    + specialize (IH s1). cbv zeta in IH.
      destruct IH as (Hf & Hsub & Hnew & Hr).
      split; [congruence |]. split; [etransitivity; eassumption |]. split.
      * intros p Hp. destruct (Hnew p Hp) as [Hp1 | (z' & ? & ?)].
        -- destruct (Hn1 p Hp1) as [? | ?]; [by left |].
           right. exists z. split; [left | done].
        -- right. exists z'. split; [by right | done].
      * destruct (for_each l _ s1) as [[] s' | e s']; simpl_state.
        -- destruct Hr as [Ht Hd]. split.
           ++ by rewrite Ht, Ht1, <- app_assoc.
           ++ intros z' [-> | Hz']%elem_of_cons; [| by apply Hd]. split.
              ** apply Hsub, Hc1; [done | apply size_dir_nonempty].
              ** by eapply mkdir_p_normal_can_look.
        -- destruct Hr as [[k Ht] (z' & t & Hz' & Hm & Hl)]. split.
           ++ exists (S k). by rewrite Ht, Ht1, <- app_assoc.
           ++ exists z', t. split; [by right | done].
    + split; [done |]. split; [done |]. split.
      * intros p Hp. destruct (Hn1 p Hp); [by left |].
        right. exists z. split; [left | done].
      * split.
        -- exists 1%nat. exact Ht1.
        -- exists z, s. split; [left |]. split; [done |].
           rewrite Ht1. apply last_snoc.
Qed.

Lemma create_size_dirs_flat W s :
  create_size_dirs W s = for_each widths (fun z => mkdir_p W (size_dir z)) s.
Proof. exact (sizes_loop_flat (fun z => mkdir_p W (size_dir z)) s). Qed.

(** Setup touches no source: it adds only directories on the way to the
    size directories. *)
Lemma setup_keeps_sources W s :
  sources_as (present s) (state_of (create_size_dirs W s)).
Proof.
  intros f b Hfb. rewrite create_size_dirs_flat.
  destruct (mkdirs_spec W widths s) as (Hf & Hsub & Hnew & _).
  unfold present. apply bool_decide_ext. rewrite Hf. split.
  - intros [Hd | ?]; [| by right].
    destruct (Hnew _ Hd) as [? | (z & Hz & Hc)]; [by left |].
    destruct (sources_apart f b Hfb) as [_ Hne]. by destruct (Hne z Hz).
  - intros [Hd | ?]; [left; by apply Hsub | by right].
Qed.

(** Size directories that are there and can be looked at: setup returns
    and makes nothing. *)
Lemma mkdirs_existing W (l : list Z) s :
  (∀ z, z ∈ l -> size_dir z ∈ dirs s ∧ can_look W (size_dir z) = true) ->
  ∃ s', for_each l (fun z => mkdir_p W (size_dir z)) s = Normal tt s'
        ∧ dirs s' = dirs s ∧ files s' = files s
        ∧ trace s' = trace s ++ (EMkdir ∘ size_dir <$> l).
Proof.
  revert s. induction l as [| z l IH]; intros s Hall.
  - exists s. cbn. by rewrite app_nil_r.
  - cbn [for_each]. unfold bind.
    destruct (Hall z) as [Hin Hlook]; [left |].
    rewrite (mkdir_p_existing W _ s Hin Hlook).
    destruct (IH (log (EMkdir (size_dir z)) s)) as (s' & -> & ? & ? & Ht).
    + intros z' Hz'. simpl_state. apply Hall. by right.
    + exists s'. simpl_state. rewrite Ht, <- app_assoc. done.
Qed.

(** ** The whole run *)

Lemma main_spec W s :
  main W s
  = match create_size_dirs W s with
    | Normal _ s1 => finish W (after_setup W (present s) (trace s1)) s1
    | Raised e s1 => Raised e s1
    end.
Proof.
  unfold main, bind. pose proof (setup_keeps_sources W s) as Hsrc.
  destruct (create_size_dirs W s) as [[] s1 | e s1]; [| reflexivity].
  simpl in Hsrc. unfold after_setup, print at 1.
  destruct (print_error W (trace s1) opening_msg) as [e |].
  { unfold finish. cbn [fst snd]. by rewrite written_nil, emit_nil. }
  cbv zeta. rewrite (sweep_spec W (present s)).
  2:{ intros f b Hfb. rewrite <- (Hsrc f b Hfb). reflexivity. }
  cbn [trace log].
  destruct (sweep_step W (present s) (trace s1 ++ [EPrint opening_msg]))
    as [evs [e |]]; unfold finish; cbn [fst snd].
  - f_equal. same_state.
  - unfold print. cbn [trace emit log].
    destruct (print_error W ((trace s1 ++ [EPrint opening_msg]) ++ evs)
                closing_msg) as [e |]; cbn [fst snd].
    + f_equal. same_state.
    + f_equal. apply state_eq; cbn [dirs files trace emit log].
      * reflexivity.
      * change (EPrint opening_msg :: evs ++ [EPrint closing_msg])
          with ([EPrint opening_msg] ++ evs ++ [EPrint closing_msg]).
        rewrite !written_app, !written_print.
        rewrite (right_id_L ∅ (∪)), (left_id_L ∅ (∪)). reflexivity.
      * rewrite <- !app_assoc. reflexivity.
Qed.

Lemma event_of_after_setup W pres tr ev :
  ev ∈ (after_setup W pres tr).1 ->
  ev = EPrint opening_msg ∨ ev = EPrint closing_msg
  ∨ ev ∈ (sweep_step W pres (tr ++ [EPrint opening_msg])).1.
Proof.
  unfold after_setup. destruct (print_error W tr opening_msg);
    [by intros ?%elem_of_nil |]. cbv zeta.
  destruct (sweep_step W pres (tr ++ [EPrint opening_msg])) as [evs [e |]];
    cbn [fst snd].
  - rewrite elem_of_cons. tauto.
  - destruct (print_error W _ closing_msg); cbn [fst];
      rewrite elem_of_cons, ?elem_of_app, ?list_elem_of_singleton; tauto.
Qed.

Lemma event_of_entry_step W pres tr f b ev :
  ev ∈ (entry_step W pres tr (f, b)).1 ->
  (pres f = false ∧ ev = EPrint (skipping_msg f))
  ∨ (pres f = true ∧ ∃ z tr', z ∈ widths ∧ ev ∈ (convert_step W tr' f b z).1).
Proof.
  unfold entry_step. cbn [fst snd].
  destruct (access W (svg_path f)); try (by intros ?%elem_of_nil);
    (destruct (pres f);
     [intros (z & tr' & ? & ?)%thread_elem; right; eauto |
      destruct (print_error W tr (skipping_msg f)); cbn [fst];
      rewrite ?elem_of_cons, ?elem_of_nil; intuition]).
Qed.

(** What is known of a run that returned. *)
Lemma completed_run W s s' :
  main W (fresh s) = Normal tt s' ->
  ∃ evs s1,
    create_size_dirs W (fresh s) = Normal tt s1
    ∧ sweep_step W (present s) (setup_trace ++ [EPrint opening_msg])
      = (evs, None)
    ∧ trace s' = setup_trace ++ EPrint opening_msg :: evs ++ [EPrint closing_msg]
    ∧ files s' = files s ∪ written W evs
    ∧ dirs s' = dirs s1
    ∧ dirs s ⊆ dirs s'
    ∧ (∀ z, z ∈ widths ->
         size_dir z ∈ dirs s' ∧ can_look W (size_dir z) = true).
Proof.
  rewrite main_spec.
  pose proof (mkdirs_spec W widths (fresh s)) as Hs. cbv zeta in Hs.
  rewrite <- create_size_dirs_flat in Hs.
  destruct (create_size_dirs W (fresh s)) as [[] s1 | e s1]; [| done].
  simpl_state. destruct Hs as (Hf & Hsub & _ & Ht & Hd).
  rewrite app_nil_l in Ht. fold setup_trace in Ht.
  rewrite Ht. unfold after_setup, finish.
  destruct (print_error W setup_trace opening_msg); cbn [fst snd]; [done |].
  cbv zeta.
  destruct (sweep_step W (present (fresh s))
              (setup_trace ++ [EPrint opening_msg])) as [evs [e |]] eqn:Hsw;
    cbn [fst snd]; [done |].
  destruct (print_error W _ closing_msg); cbn [fst snd]; [done |].
  intros [= <-]. exists evs, s1.
  simpl_state. rewrite Ht, Hf. split; [done |]. split; [exact Hsw |].
  split; [done |]. split.
  - f_equal.
    change (EPrint opening_msg :: evs ++ [EPrint closing_msg])
      with ([EPrint opening_msg] ++ evs ++ [EPrint closing_msg]).
    rewrite !written_app, !written_print.
    by rewrite (right_id_L ∅ (∪)), (left_id_L ∅ (∪)).
  - done.
Qed.

(** What is known of any run: it ends in the setup loop, or it gets
    through it and does what [after_setup] describes. *)
Lemma run_outcome W s :
  (∃ e s', create_size_dirs W (fresh s) = Raised e s'
           ∧ main W (fresh s) = Raised e s'
           ∧ files s' = files s
           ∧ ∃ k, trace s' = EMkdir ∘ size_dir <$> take k widths)
  ∨ (∃ s1, create_size_dirs W (fresh s) = Normal tt s1
           ∧ main W (fresh s)
             = finish W (after_setup W (present s) setup_trace) s1
           ∧ trace s1 = setup_trace ∧ files s1 = files s
           ∧ (∀ z, z ∈ widths -> size_dir z ∈ dirs s1)).
Proof.
  rewrite main_spec.
  pose proof (mkdirs_spec W widths (fresh s)) as Hs. cbv zeta in Hs.
  rewrite <- create_size_dirs_flat in Hs.
  destruct (create_size_dirs W (fresh s)) as [[] s1 | e s1]; simpl_state.
  - right. exists s1. destruct Hs as (Hf & _ & _ & Ht & Hd).
    rewrite app_nil_l in Ht. fold setup_trace in Ht. rewrite Ht. repeat (split; [done |]).
    intros z Hz. by apply Hd.
  - left. exists e, s1. destruct Hs as (Hf & _ & _ & Hk & _). done.
Qed.

Lemma run_not_mkdir argv (l : list Z) : ERun argv ∉ (EMkdir ∘ size_dir <$> l).
Proof. intros (z & Hz & _)%list_elem_of_fmap. discriminate. Qed.

(** The trace of any run is a stretch of the setup trace followed by
    events of [after_setup]. *)
Lemma trace_of_run W s :
  ∃ k evs,
    trace (state_of (main W (fresh s)))
    = (EMkdir ∘ size_dir <$> take k widths) ++ evs
    ∧ files (state_of (main W (fresh s))) = files s ∪ written W evs
    ∧ (∀ ev, ev ∈ evs ->
         ev ∈ (after_setup W (present s) setup_trace).1)
    ∧ (evs ≠ [] -> ∀ z, z ∈ widths ->
         size_dir z ∈ dirs (state_of (main W (fresh s)))).
Proof.
  destruct (run_outcome W s)
    as [(e & s' & _ & -> & Hf & k & Ht)
       | (s1 & _ & -> & Ht & Hf & Hd)].
  - exists k, []. simpl_state. rewrite app_nil_r, written_nil.
    rewrite (right_id_L ∅ (∪)). split; [done |]. split; [done |].
    split; [by intros ev ?%elem_of_nil | done].
  - exists (length widths), (after_setup W (present s) setup_trace).1.
    rewrite state_of_finish. simpl_state. rewrite Ht, Hf, firstn_all.
    split; [done |]. split; [done |]. split; [done |].
    intros _ z Hz. by apply Hd.
Qed.

Lemma run_in_trace W s argv :
  ERun argv ∈ trace (state_of (main W (fresh s))) ->
  ∃ f b z, (f, b) ∈ svg_files ∧ z ∈ widths ∧ present s f = true
           ∧ (argv = inkscape_cmd f b z ∨ argv = magick_cmd f b z).
Proof.
  destruct (trace_of_run W s) as (k & evs & -> & _ & Hevs & _).
  intros [?%run_not_mkdir | Hev]%elem_of_app; [done |].
  apply Hevs, event_of_after_setup in Hev as [? | [? | Hev]]; [done | done |].
  by apply run_of_sweep_step in Hev.
Qed.

Lemma config_run_in_after_setup W pres tr argv :
  ERun argv ∈ (after_setup W pres tr).1 -> config_run argv.
Proof.
  intros [? | [? | Hev]]%event_of_after_setup; [done | done |].
  apply run_of_sweep_step in Hev as (f & b & z & ? & ? & _ & ?).
  exists f, b, z. done.
Qed.

Lemma written_in_run W s p :
  p ∈ files (state_of (main W (fresh s))) ->
  p ∈ files s
  ∨ ∃ f b z, (f, b) ∈ svg_files ∧ z ∈ widths ∧ present s f = true
             ∧ p = output_path b z
             ∧ size_dir z ∈ dirs (state_of (main W (fresh s))).
Proof.
  destruct (trace_of_run W s) as (k & evs & Ht & -> & Hevs & Hd).
  intros [? | Hp]%elem_of_union; [by left | right].
  assert (Hne : evs ≠ []).
  { intros ->. by rewrite written_nil in Hp. }
  apply elem_of_written in Hp as (argv & Hev & Hp).
  pose proof (Hevs _ Hev) as Hev'.
  apply event_of_after_setup in Hev' as [? | [? | Hev']]; [done | done |].
  apply run_of_sweep_step in Hev' as (f & b & z & Hfb & Hz & Hpres & Hargv).
  destruct (destination_of_cmds f b z Hfb Hz) as [Hi Hm].
  exists f, b, z. repeat (split; [done |]). split; [| by apply Hd].
  unfold child_writes in Hp. destruct (wrote W argv); [| by apply elem_of_empty in Hp].
  destruct Hargv as [-> | ->]; rewrite ?Hi, ?Hm in Hp;
    by apply elem_of_singleton in Hp.
Qed.

Lemma kept_in_run W s p :
  p ∈ files s -> p ∈ files (state_of (main W (fresh s))).
Proof.
  destruct (trace_of_run W s) as (k & evs & _ & -> & _).
  intros ?. apply elem_of_union. by left.
Qed.

Lemma dirs_of_run W s :
  dirs (state_of (main W s)) = dirs (state_of (create_size_dirs W s)).
Proof.
  rewrite main_spec. destruct (create_size_dirs W s) as [[] ? | ? ?]; [| done].
  by rewrite state_of_finish.
Qed.

Lemma run_keeps_sources W s :
  sources_as (present s) (state_of (main W (fresh s))).
Proof.
  rewrite main_spec.
  pose proof (setup_keeps_sources W (fresh s)) as Hk.
  destruct (create_size_dirs W (fresh s)) as [[] s1 | e s1]; [| exact Hk].
  rewrite state_of_finish. apply sources_as_emit; [| exact Hk].
  intros argv. apply config_run_in_after_setup.
Qed.

(** More on loops: where an event of a loop over distinct items comes
    from, and where a loop that raises does. *)
Lemma thread_normal_at {A} (step : list Event -> A -> Step) tr (l : list A) x :
  NoDup l -> (thread step tr l).2 = None -> x ∈ l ->
  ∃ pre post,
    (thread step tr l).1 = pre ++ (step (tr ++ pre) x).1 ++ post
    ∧ (step (tr ++ pre) x).2 = None
    ∧ (∀ ev, ev ∈ pre ++ post ->
         ∃ y tr', y ∈ l ∧ y ≠ x ∧ ev ∈ (step tr' y).1).
Proof.
  revert tr. induction l as [| y l IH]; intros tr Hnd Hn Hx.
  - by apply elem_of_nil in Hx.
  - apply NoDup_cons in Hnd as [Hy Hnd]. cbn [thread] in *.
    destruct (step tr y) as [evs [e |]] eqn:Hstep;
      cbn [fst snd] in *; [done |].
    apply elem_of_cons in Hx as [-> | Hx].
    + exists [], (thread step (tr ++ evs) l).1.
      rewrite app_nil_r, Hstep. split; [done |]. split; [done |].
      intros ev Hev. cbn [app] in Hev.
      apply thread_elem in Hev as (y' & tr' & Hy' & Hev).
      exists y', tr'. split; [by right |]. split; [| done].
      intros ->. done.
    + assert (Hne : x ≠ y) by (by intros ->).
      destruct (IH _ Hnd Hn Hx) as (pre & post & Heq & Hnone & Hout).
      exists (evs ++ pre), post. rewrite Heq, !app_assoc in *.
      split; [done |]. split; [done |].
      intros ev [[Hev | Hev]%elem_of_app | Hev]%elem_of_app.
      * exists y, tr. split; [left |]. split; [done |]. by rewrite Hstep.
      * destruct (Hout ev) as (y' & tr' & ? & ? & ?);
          [apply elem_of_app; by left |].
        exists y', tr'. split; [by right | done].
      * destruct (Hout ev) as (y' & tr' & ? & ? & ?);
          [apply elem_of_app; by right |].
        exists y', tr'. split; [by right | done].
Qed.

Lemma thread_raised_at {A} (step : list Event -> A -> Step) tr (l : list A) e :
  (thread step tr l).2 = Some e ->
  ∃ x pre, x ∈ l
    ∧ (thread step tr l).1 = pre ++ (step (tr ++ pre) x).1
    ∧ (step (tr ++ pre) x).2 = Some e.
Proof.
  revert tr. induction l as [| y l IH]; intros tr Hr; [done |].
  cbn [thread] in *. destruct (step tr y) as [evs [e' |]] eqn:Hstep;
    cbn [fst snd] in *.
  - injection Hr as ->. exists y, []. rewrite app_nil_r, Hstep.
    split; [left | done].
  - destruct (IH _ Hr) as (x & pre & Hx & Heq & Hsome).
    exists x, (evs ++ pre). rewrite Heq, !app_assoc in *.
    split; [by right | done].
Qed.

Lemma thread_normal_sum {A} (step : list Event -> A -> Step)
    (c : list Event -> nat) (g : A -> nat) tr (l : list A) :
  c [] = 0%nat -> (∀ a b, c (a ++ b) = (c a + c b)%nat) ->
  (∀ tr' x, x ∈ l -> (step tr' x).2 = None -> c (step tr' x).1 = g x) ->
  (thread step tr l).2 = None ->
  c (thread step tr l).1 = sum_list (g <$> l).
Proof.
  intros Hnil Happ Hg. revert tr. induction l as [| x l IH]; intros tr Hn.
  - exact Hnil.
  - cbn [thread] in *. destruct (step tr x) as [evs [e |]] eqn:Hstep;
      cbn [fst snd] in *; [done |].
    rewrite Happ, fmap_cons, IH; [| | done].
    + cbn [sum_list]. f_equal. specialize (Hg tr x). rewrite Hstep in Hg.
      apply Hg; [left | done].
    + intros tr' y Hy. apply Hg. by right.
Qed.

Lemma runs_of_app tr tr' : runs_of (tr ++ tr') = runs_of tr ++ runs_of tr'.
Proof. apply omap_app. Qed.

Lemma elem_of_runs_of tr argv : argv ∈ runs_of tr <-> ERun argv ∈ tr.
Proof.
  unfold runs_of. rewrite list_elem_of_omap. split.
  - intros (ev & Hev & Heq). destruct ev; try discriminate.
    by injection Heq as ->.
  - intros Hin. by exists (ERun argv).
Qed.

Lemma thread_runs_NoDup {A} (step : list Event -> A -> Step) tr (l : list A) :
  NoDup l ->
  (∀ tr' x, x ∈ l -> NoDup (runs_of (step tr' x).1)) ->
  (∀ tr1 tr2 x y c, x ∈ l -> y ∈ l ->
     c ∈ runs_of (step tr1 x).1 -> c ∈ runs_of (step tr2 y).1 -> x = y) ->
  NoDup (runs_of (thread step tr l).1).
Proof.
  intros Hnd Hone Hinj. revert tr.
  induction Hnd as [| x l Hx Hnd IH]; intros tr; [apply NoDup_nil_2 |].
  cbn [thread]. destruct (step tr x) as [evs [e |]] eqn:Hstep; cbn [fst].
  - specialize (Hone tr x). rewrite Hstep in Hone. apply Hone. left.
  - rewrite runs_of_app. apply NoDup_app. split; [| split].
    + specialize (Hone tr x). rewrite Hstep in Hone. apply Hone. left.
    + intros c Hc Hc'. apply elem_of_runs_of, thread_elem in Hc'
        as (y & tr' & Hy & Hc').
      assert (x = y) as ->; [| done].
      apply (Hinj tr tr' x y c); [left | by right | by rewrite Hstep |].
      by apply elem_of_runs_of.
    + apply IH.
      * intros tr' y Hy. apply Hone. by right.
      * intros tr1 tr2 y y' c Hy Hy'. apply Hinj; by right.
Qed.

Lemma widths_NoDup : NoDup widths.
Proof. by_evaluation. Qed.

Lemma registry_NoDup : NoDup svg_files.
Proof. by_evaluation. Qed.

(** ** The lines and the pairs *)

(** The skip notice is no other line of the script. *)
Lemma skipping_msg_apart f :
  skipping_msg f ≠ opening_msg ∧ skipping_msg f ≠ closing_msg
  ∧ (∀ b z, skipping_msg f ≠ created_msg b z)
  ∧ (∀ b z, skipping_msg f ≠ created_magick_msg b z)
  ∧ (∀ f' z, skipping_msg f ≠ failed_msg f' z).
Proof. repeat split; intros; cbn; discriminate. Qed.

Lemma skipping_msg_inj f b f' b' :
  (f, b) ∈ svg_files -> (f', b') ∈ svg_files ->
  skipping_msg f = skipping_msg f' -> f = f'.
Proof.
  intros Hfb Hfb'.
  assert (H : Forall (fun e : string * string =>
            Forall (fun e' : string * string =>
              skipping_msg e.1 = skipping_msg e'.1 -> e.1 = e'.1) svg_files)
            svg_files) by by_evaluation.
  rewrite Forall_forall in H. specialize (H _ Hfb).
  rewrite Forall_forall in H. exact (H _ Hfb').
Qed.

Lemma created_msgs_apart b z :
  (created_msg b z ≠ opening_msg ∧ created_msg b z ≠ closing_msg
   ∧ (∀ f, created_msg b z ≠ skipping_msg f)
   ∧ (∀ f z', created_msg b z ≠ failed_msg f z'))
  ∧ (created_magick_msg b z ≠ opening_msg
     ∧ created_magick_msg b z ≠ closing_msg
     ∧ (∀ f, created_magick_msg b z ≠ skipping_msg f)
     ∧ (∀ f z', created_magick_msg b z ≠ failed_msg f z')).
Proof. repeat split; intros; cbn; discriminate. Qed.

Lemma failed_msg_apart f z :
  failed_msg f z ≠ opening_msg ∧ failed_msg f z ≠ closing_msg.
Proof. split; cbn; discriminate. Qed.

(** The outcome lines of distinct pairs are distinct, and a plain
    "Created" line is no "Created ... (with ImageMagick)" line. *)
Lemma outcome_msgs_apart f b z f' b' z' :
  (f, b) ∈ svg_files -> z ∈ widths -> (f', b') ∈ svg_files -> z' ∈ widths ->
  created_msg b z ≠ created_magick_msg b' z'
  ∧ (created_msg b z = created_msg b' z' -> (f, b, z) = (f', b', z'))
  ∧ (created_magick_msg b z = created_magick_msg b' z' ->
     (f, b, z) = (f', b', z'))
  ∧ (failed_msg f z = failed_msg f' z' -> (f, b, z) = (f', b', z')).
Proof.
  intros Hfb Hz Hfb' Hz'.
  assert (H : Forall (fun e : string * string => Forall (fun z =>
            Forall (fun e' : string * string => Forall (fun z' =>
              created_msg e.2 z ≠ created_magick_msg e'.2 z'
              ∧ (created_msg e.2 z = created_msg e'.2 z' ->
                 (e.1, e.2, z) = (e'.1, e'.2, z'))
              ∧ (created_magick_msg e.2 z = created_magick_msg e'.2 z' ->
                 (e.1, e.2, z) = (e'.1, e'.2, z'))
              ∧ (failed_msg e.1 z = failed_msg e'.1 z' ->
                 (e.1, e.2, z) = (e'.1, e'.2, z')))
            widths) svg_files) widths) svg_files) by by_evaluation.
  rewrite Forall_forall in H. specialize (H _ Hfb).
  rewrite Forall_forall in H. specialize (H _ Hz).
  rewrite Forall_forall in H. specialize (H _ Hfb').
  rewrite Forall_forall in H. exact (H _ Hz').
Qed.

Lemma stdout_of_mkdirs (l : list Z) : stdout_of (EMkdir ∘ size_dir <$> l) = [].
Proof. induction l; [reflexivity | exact IHl]. Qed.

Lemma entry_step_present W pres tr f b :
  (entry_step W pres tr (f, b)).2 = None -> pres f = true ->
  entry_step W pres tr (f, b)
  = thread (fun tr' z => convert_step W tr' f b z) tr widths.
Proof.
  unfold entry_step. cbn [fst snd]. intros Hn ->.
  by destruct (access W (svg_path f)).
Qed.

Lemma entry_step_missing W pres tr f b :
  (entry_step W pres tr (f, b)).2 = None -> pres f = false ->
  entry_step W pres tr (f, b) = ([EPrint (skipping_msg f)], None).
Proof.
  unfold entry_step. cbn [fst snd]. intros Hn Hp. rewrite Hp in *.
  destruct (access W (svg_path f)); try done;
    by destruct (print_error W tr (skipping_msg f)).
Qed.

(** In a run that returns, the events of a pair whose source is there
    sit together in the trace, after the very trace they were decided on,
    and every other event is foreign to the pair. *)
Lemma own_events W s s' f b z :
  main W (fresh s) = Normal tt s' ->
  (f, b) ∈ svg_files -> z ∈ widths -> present s f = true ->
  ∃ pre post,
    trace s' = pre ++ (convert_step W pre f b z).1 ++ post
    ∧ (convert_step W pre f b z).2 = None
    ∧ ∀ ev, ev ∈ pre ++ post -> foreign W f b z ev.
Proof.
  intros Hrun Hfb Hz Hp.
  destruct (completed_run W s s' Hrun) as (evs & s1 & _ & Hsw & Ht & _).
  assert (Hn : (sweep_step W (present s)
                  (setup_trace ++ [EPrint opening_msg])).2 = None)
    by (by rewrite Hsw).
  destruct (thread_normal_at _ _ _ (f, b) registry_NoDup Hn Hfb)
    as (pre1 & post1 & Heq1 & Hn1 & Hout1).
  fold (sweep_step W (present s) (setup_trace ++ [EPrint opening_msg])) in Heq1.
  rewrite Hsw in Heq1. cbn [fst] in Heq1.
  pose proof (entry_step_present _ _ _ _ _ Hn1 Hp) as Heq'.
  rewrite Heq' in Heq1, Hn1. clear Heq'.
  destruct (thread_normal_at _ _ _ z widths_NoDup Hn1 Hz)
    as (pre2 & post2 & Heq2 & Hn2 & Hout2).
  cbv beta in Heq2, Hn2, Hout2.
  exists (((setup_trace ++ [EPrint opening_msg]) ++ pre1) ++ pre2),
         (post2 ++ post1 ++ [EPrint closing_msg]).
  split; [| split; [exact Hn2 |]].
  - rewrite Ht, Heq1, Heq2. rewrite <- !app_assoc. reflexivity.
  - intros ev Hev.
    apply elem_of_app in Hev as [Hev | Hev];
      [apply elem_of_app in Hev as [Hev | Hev];
       [apply elem_of_app in Hev as [Hev | Hev];
        [apply elem_of_app in Hev as [Hev | Hev] |] |] |
       apply elem_of_app in Hev as [Hev | Hev];
       [| apply elem_of_app in Hev as [Hev | Hev]]];
      try (apply list_elem_of_singleton in Hev as ->).
    + left. apply list_elem_of_fmap in Hev as (z' & -> & _). by exists z'.
    + right; left. done.
    + destruct (Hout1 ev) as ([f' b'] & tr' & Hfb' & Hne & Hev');
        [apply elem_of_app; by left |].
      apply event_of_entry_step in Hev' as [[_ ->] | (_ & z' & tr'' & Hz' & Hev')].
      * do 3 right. left. by exists f', b'.
      * do 4 right. exists f', b', z', tr''. repeat (split; [done |]).
        split; [| done]. intros [= -> -> ->]. done.
    + destruct (Hout2 ev) as (z' & tr' & Hz' & Hne & Hev');
        [apply elem_of_app; by left |].
      do 4 right. exists f, b, z', tr'. repeat (split; [done |]).
      split; [| done]. intros [= ->]. done.
    + destruct (Hout2 ev) as (z' & tr' & Hz' & Hne & Hev');
        [apply elem_of_app; by right |].
      do 4 right. exists f, b, z', tr'. repeat (split; [done |]).
      split; [| done]. intros [= ->]. done.
    + destruct (Hout1 ev) as ([f' b'] & tr' & Hfb' & Hne & Hev');
        [apply elem_of_app; by right |].
      apply event_of_entry_step in Hev' as [[_ ->] | (_ & z' & tr'' & Hz' & Hev')].
      * do 3 right. left. by exists f', b'.
      * do 4 right. exists f', b', z', tr''. repeat (split; [done |]).
        split; [| done]. intros [= -> -> ->]. done.
    + right; right; left. done.
Qed.

Lemma ERun_inj a b : ERun a = ERun b -> a = b.
Proof. by intros [= ->]. Qed.

Lemma EPrint_inj a b : EPrint a = EPrint b -> a = b.
Proof. by intros [= ->]. Qed.

Ltac event_eq H :=
  first [apply ERun_inj in H | apply EPrint_inj in H | discriminate H].

(** A foreign event is none of the pair's own. *)
Lemma foreign_not_own W f b z ev :
  (f, b) ∈ svg_files -> z ∈ widths -> foreign W f b z ev ->
  ev ≠ ERun (inkscape_cmd f b z) ∧ ev ≠ ERun (magick_cmd f b z)
  ∧ ev ≠ EPrint (created_msg b z) ∧ ev ≠ EPrint (created_magick_msg b z)
  ∧ ev ≠ EPrint (failed_msg f z).
Proof.
  intros Hfb Hz Hfor.
  destruct (created_msgs_apart b z)
    as ((Ho & Hc & Hs & Hx) & (Ho' & Hc' & Hs' & Hx')).
  destruct (failed_msg_apart f z) as [Hfo Hfc].
  destruct Hfor as [[z' ->] | [-> | [-> | [(f' & b' & Hfb' & ->) |
    (f' & b' & z' & tr' & Hfb' & Hz' & Hne & Hev)]]]].
  - repeat split; discriminate.
  - repeat split; intros Heq; event_eq Heq; by auto.
  - repeat split; intros Heq; event_eq Heq; by auto.
  - destruct (skipping_msg_apart f') as (_ & _ & H1 & H2 & H3).
    repeat split; intros Heq; event_eq Heq.
    + by destruct (H1 b z).
    + by destruct (H2 b z).
    + by destruct (H3 f z).
  - destruct (cmds_apart f b z f' b' z' Hfb Hz Hfb' Hz')
      as (Hne1 & Hi & Hm & _).
    destruct (cmds_apart f' b' z' f b z Hfb' Hz' Hfb Hz) as (Hne2 & _).
    destruct (outcome_msgs_apart f b z f' b' z' Hfb Hz Hfb' Hz')
      as (Hn1 & Hc1 & Hc2 & Hc3).
    destruct (outcome_msgs_apart f' b' z' f b z Hfb' Hz' Hfb Hz)
      as (Hn2 & _).
    destruct (created_msgs_apart b' z')
      as ((_ & _ & _ & Hy) & (_ & _ & _ & Hy')).
    apply event_of_convert_step in Hev
      as [-> | [-> | [[-> _] | [[-> _] | ->]]]];
      repeat split; intros Heq; event_eq Heq;
      try (destruct Hne; symmetry;
           solve [apply Hi; by symmetry | apply Hm; by symmetry
                 | apply Hc1; by symmetry | apply Hc2; by symmetry
                 | apply Hc3; by symmetry]);
      try (by symmetry in Heq;
             first [destruct Hne1 | destruct Hn1
                   | destruct (Hx _ _ Heq) | destruct (Hx' _ _ Heq)]);
      try (by first [destruct Hne2 | destruct Hn2
                    | destruct (Hy _ _ Heq) | destruct (Hy' _ _ Heq)]).
Qed.

(** ** What a run wrote on its standard output *)

Lemma stdout_of_app a b : stdout_of (a ++ b) = stdout_of a ++ stdout_of b.
Proof. apply omap_app. Qed.

Lemma elem_of_stdout_of line tr :
  line ∈ stdout_of tr <-> EPrint line ∈ tr ∨ EChildOut line ∈ tr.
Proof.
  unfold stdout_of. rewrite list_elem_of_omap. split.
  - intros ([] & Hin & Heq); try discriminate; injection Heq as ->; auto.
  - intros [Hin | Hin]; eexists; (split; [exact Hin | reflexivity]).
Qed.

Lemma notices_app line a b :
  notices line (a ++ b) = (notices line a + notices line b)%nat.
Proof. unfold notices. by rewrite stdout_of_app, count_occ_app. Qed.

Lemma notices_zero line tr :
  EPrint line ∉ tr -> EChildOut line ∉ tr -> notices line tr = 0%nat.
Proof.
  intros Hp Hc. unfold notices. apply count_occ_not_In.
  rewrite <- list_elem_of_In, elem_of_stdout_of. tauto.
Qed.

Lemma notices_print line line' :
  notices line [EPrint line']
  = if bool_decide (line' = line) then 1%nat else 0%nat.
Proof.
  unfold notices. cbn. destruct (String.string_dec line' line) as [H | H].
  - by rewrite bool_decide_eq_true_2.
  - by rewrite bool_decide_eq_false_2.
Qed.

(** The events of the sweep and of a whole run, by origin. *)
Lemma event_of_sweep_step W pres tr ev :
  ev ∈ (sweep_step W pres tr).1 ->
  (∃ f b, (f, b) ∈ svg_files ∧ pres f = false ∧ ev = EPrint (skipping_msg f))
  ∨ (∃ f b z tr', (f, b) ∈ svg_files ∧ z ∈ widths ∧ pres f = true
       ∧ ev ∈ (convert_step W tr' f b z).1).
Proof.
  intros ([f b] & tr' & Hfb & Hev)%thread_elem.
  apply event_of_entry_step in Hev as [[? ->] | (? & z & tr'' & ? & ?)].
  - left. by exists f, b.
  - right. by exists f, b, z, tr''.
Qed.

Lemma event_of_run W s ev :
  ev ∈ trace (state_of (main W (fresh s))) ->
  (∃ z, z ∈ widths ∧ ev = EMkdir (size_dir z))
  ∨ ev = EPrint opening_msg ∨ ev = EPrint closing_msg
  ∨ (∃ f b, (f, b) ∈ svg_files ∧ present s f = false
       ∧ ev = EPrint (skipping_msg f))
  ∨ (∃ f b z tr', (f, b) ∈ svg_files ∧ z ∈ widths ∧ present s f = true
       ∧ ev ∈ (convert_step W tr' f b z).1).
Proof.
  destruct (trace_of_run W s) as (k & evs & -> & _ & Hevs & _).
  intros [Hev | Hev]%elem_of_app.
  - left. apply list_elem_of_fmap in Hev as (z & -> & Hz).
    exists z. split; [| done]. by apply elem_of_take in Hz as (i & ?%list_elem_of_lookup_2 & _).
  - apply Hevs, event_of_after_setup in Hev as [-> | [-> | Hev]]; [tauto | tauto |].
    apply event_of_sweep_step in Hev. tauto.
Qed.

(** Nothing of a child reaches the trace of a run. *)
Lemma child_event_not_in_run W s text :
  (EChildOut text ∉ trace (state_of (main W (fresh s))))
  ∧ (EChildErr text ∉ trace (state_of (main W (fresh s)))).
Proof.
  split; intros Hev;
    apply event_of_run in Hev
      as [(? & _ & ?) | [? | [? | [(? & ? & _ & _ & ?)
         | (f & b & z & tr' & _ & _ & _ & Hev)]]]]; try discriminate;
    apply event_of_convert_step in Hev
      as [? | [? | [[? _] | [[? _] | ?]]]]; discriminate.
Qed.

(** ** The events of one pair in a run that returns *)

(** The trace holds the events of the pair in one of three shapes, and
    nothing else of the pair. *)
Lemma pair_outcome W s s' f b z :
  main W (fresh s) = Normal tt s' ->
  (f, b) ∈ svg_files -> z ∈ widths -> present s f = true ->
  ∃ pre post,
    (∀ ev, ev ∈ pre ++ post -> foreign W f b z ev)
    ∧ ((trace s' = pre ++ [ERun (inkscape_cmd f b z);
                           EPrint (created_msg b z)] ++ post
        ∧ call_ok W (inkscape_cmd f b z) true = true)
       ∨ ((call_ok W (inkscape_cmd f b z) true = false
           ∨ print_error W (pre ++ [ERun (inkscape_cmd f b z)])
               (created_msg b z) ≠ None)
          ∧ ((trace s' = pre ++ [ERun (inkscape_cmd f b z);
                                 ERun (magick_cmd f b z);
                                 EPrint (created_magick_msg b z)] ++ post
              ∧ call_ok W (magick_cmd f b z) false = true)
             ∨ (trace s' = pre ++ [ERun (inkscape_cmd f b z);
                                   ERun (magick_cmd f b z);
                                   EPrint (failed_msg f z)] ++ post
                ∧ (call_ok W (magick_cmd f b z) false = false
                   ∨ print_error W
                       ((pre ++ [ERun (inkscape_cmd f b z)])
                          ++ [ERun (magick_cmd f b z)])
                       (created_magick_msg b z) ≠ None))))).
Proof.
  intros Hrun Hfb Hz Hp.
  destruct (own_events W s s' f b z Hrun Hfb Hz Hp)
    as (pre & post & Ht & Hn & Hfor).
  exists pre, post. split; [exact Hfor |].
  destruct (convert_step_cases W pre f b z)
    as [(Heq & Hok & _) | [Hfail [[Heq Hok] | [Hfail' [Heq | (e & Heq & _)]]]]];
    rewrite Heq in Ht, Hn; cbn [fst snd] in Ht, Hn.
  - left. done.
  - right. split; [done |]. left. done.
  - right. split; [done |]. right. done.
  - done.
Qed.

(** Whether an event of the pair's own is in the trace is read off the
    pair's own stretch. *)
Lemma own_in_trace W f b z pre own post ev :
  (f, b) ∈ svg_files -> z ∈ widths ->
  (∀ ev, ev ∈ pre ++ post -> foreign W f b z ev) ->
  ev = ERun (inkscape_cmd f b z) ∨ ev = ERun (magick_cmd f b z)
  ∨ ev = EPrint (created_msg b z) ∨ ev = EPrint (created_magick_msg b z)
  ∨ ev = EPrint (failed_msg f z) ->
  ev ∈ pre ++ own ++ post <-> ev ∈ own.
Proof.
  intros Hfb Hz Hfor Hown. rewrite !elem_of_app. split; [| tauto].
  intros [Hin | [? | Hin]]; [exfalso | done | exfalso];
    (assert (Hf : foreign W f b z ev)
       by (apply Hfor, elem_of_app; tauto));
    destruct (foreign_not_own W f b z ev Hfb Hz Hf) as (? & ? & ? & ? & ?);
    tauto.
Qed.

(** ** The sweep, pair by pair *)

Lemma registry_key_once f b :
  (f, b) ∈ svg_files ->
  sum_list ((fun e : string * string =>
               if bool_decide (e.1 = f) then 1%nat else 0%nat) <$> svg_files)
  = 1%nat.
Proof.
  intros Hfb.
  assert (H : Forall (fun e0 : string * string =>
            sum_list ((fun e : string * string =>
               if bool_decide (e.1 = e0.1) then 1%nat else 0%nat) <$> svg_files)
            = 1%nat) svg_files) by by_evaluation.
  rewrite Forall_forall in H. exact (H _ Hfb).
Qed.

Lemma skip_notice_not_in_widths W tr f f' b' :
  notices (skipping_msg f)
    (thread (fun tr' z => convert_step W tr' f' b' z) tr widths).1 = 0%nat.
Proof.
  apply notices_zero; intros (z & tr' & _ & Hev)%thread_elem;
    apply event_of_convert_step in Hev
      as [? | [? | [[Heq _] | [[Heq _] | Heq]]]]; discriminate.
Qed.

(** C1, as the code has it: the existence check comes before the loops
    over the widths (lines 36-39 against 41-42), so in a run that returns,
    a registry entry whose source file is missing gets its "file not
    found" notice exactly once, not once per width. *)
Theorem skip_notice_once W s s' f b :
  (f, b) ∈ svg_files ->
  present s f = false ->
  main W (fresh s) = Normal tt s' ->
  notices (skipping_msg f) (trace s') = 1%nat.
Proof.
  intros Hfb Hp Hrun.
  destruct (completed_run W s s' Hrun) as (evs & s1 & _ & Hsw & Ht & _).
  destruct (skipping_msg_apart f) as (Hop & Hcl & _).
  assert (Hn : (sweep_step W (present s)
                  (setup_trace ++ [EPrint opening_msg])).2 = None)
    by (by rewrite Hsw).
  pose proof (thread_normal_sum (entry_step W (present s))
                (notices (skipping_msg f))
                (fun e => if bool_decide (e.1 = f) then 1%nat else 0%nat)
                (setup_trace ++ [EPrint opening_msg]) svg_files
                eq_refl (notices_app _)) as Hsum.
  fold (sweep_step W (present s) (setup_trace ++ [EPrint opening_msg])) in Hsum.
  rewrite Hsw in Hsum. cbn [fst snd] in Hsum.
  rewrite (registry_key_once f b Hfb) in Hsum.
  rewrite Ht.
  change (EPrint opening_msg :: evs ++ [EPrint closing_msg])
    with ([EPrint opening_msg] ++ evs ++ [EPrint closing_msg]).
  rewrite !notices_app, !notices_print, Hsum; [| | done].
  - rewrite !bool_decide_eq_false_2 by (intros Heq; by auto).
    unfold notices, setup_trace. by rewrite stdout_of_mkdirs.
  - intros tr' [f' b'] Hfb' Hnone. cbn [fst].
    destruct (present s f') eqn:Hp'.
    + rewrite (entry_step_present _ _ _ _ _ Hnone Hp').
      rewrite skip_notice_not_in_widths.
      rewrite bool_decide_eq_false_2; [done |]. intros ->. congruence.
    + rewrite (entry_step_missing _ _ _ _ _ Hnone Hp'). cbn [fst].
      rewrite notices_print.
      rewrite (bool_decide_ext (skipping_msg f' = skipping_msg f) (f' = f));
        [done |]. split; [| by intros ->].
      by apply (skipping_msg_inj f' b' f b).
Qed.

Lemma skip_notice_once_witness :
  notices (skipping_msg "synced-sports-primary.svg")
          (trace (state_of (main no_tools (fresh icon_only)))) = 1%nat.
Proof.
  apply (skip_notice_once no_tools icon_only _ "synced-sports-primary.svg"
           "primary").
  - by_evaluation.
  - vm_compute. reflexivity.
  - apply normal_of_completes. vm_compute. reflexivity.
Defined.

(** C1, as the specification words it (six notices for a missing source,
    one per width), fails: with only the icon in the source directory the
    notice for the primary logo is printed once. *)
Lemma skip_notice_per_width_counterexample :
  ("synced-sports-primary.svg", "primary") ∈ svg_files
  ∧ present icon_only "synced-sports-primary.svg" = false
  ∧ completes (main no_tools (fresh icon_only)) = true
  ∧ length widths = 6%nat
  ∧ notices (skipping_msg "synced-sports-primary.svg")
            (trace (state_of (main no_tools (fresh icon_only))))
    ≠ length widths.
Proof.
  split; [by_evaluation |].
  split; [vm_compute; reflexivity |].
  split; [vm_compute; reflexivity |].
  split; [reflexivity |].
  vm_compute. discriminate.
Qed.

Lemma output_path_shape f b z :
  (f, b) ∈ svg_files -> z ∈ widths ->
  output_path b z
  = png_dir ++ [ str_int z +:+ "px";
                 "synced-sports-" +:+ b +:+ "-" +:+ str_int z +:+ ".png" ]
  ∧ path_str (output_path b z) = spec_png b z.
Proof.
  intros Hfb Hz.
  assert (H : Forall (fun e : string * string => Forall (fun z =>
            output_path e.2 z
            = png_dir ++ [ str_int z +:+ "px";
                           "synced-sports-" +:+ e.2 +:+ "-" +:+ str_int z
                             +:+ ".png" ]
            ∧ path_str (output_path e.2 z) = spec_png e.2 z)
            widths) svg_files) by by_evaluation.
  rewrite Forall_forall in H. specialize (H _ Hfb).
  rewrite Forall_forall in H. exact (H _ Hz).
Qed.

(** In a run that returns every pair whose source is there is put to
    Inkscape. *)
Lemma inkscape_attempted W s s' f b z :
  main W (fresh s) = Normal tt s' ->
  (f, b) ∈ svg_files -> z ∈ widths -> present s f = true ->
  ERun (inkscape_cmd f b z) ∈ trace s'.
Proof.
  intros Hrun Hfb Hz Hp.
  destruct (pair_outcome W s s' f b z Hrun Hfb Hz Hp)
    as (pre & post & _ & [[-> _] | [_ [[-> _] | [-> _]]]]);
    apply elem_of_app; right; left.
Qed.

(** C4: every command a run launches belongs to a registry entry and a
    catalogue width, its token among the seven and its width among the
    six, and names as its output exactly
    [<png_root>/<width>px/synced-sports-<token>-<width>.png]: Inkscape in
    its [--export-filename=] argument, ImageMagick as its last argument.
    In a run that returns, every pair whose source is there is attempted. *)
Theorem output_path_exact W s :
  (∀ argv, ERun argv ∈ trace (state_of (main W (fresh s))) ->
     ∃ f token width,
       (f, token) ∈ svg_files
       ∧ token ∈ ["primary"; "horizontal"; "icon"; "waves"; "black"; "white";
                  "wordmark"]
       ∧ width ∈ [32; 64; 128; 256; 512; 1024]
       ∧ output_path token width
         = png_dir ++ [ str_int width +:+ "px";
                        "synced-sports-" +:+ token +:+ "-" +:+ str_int width
                          +:+ ".png" ]
       ∧ path_str (output_path token width) = spec_png token width
       ∧ destination argv = Some (output_path token width)
       ∧ ((argv = inkscape_cmd f token width
           ∧ argv !! 4%nat = Some ("--export-filename=" +:+ spec_png token width))
          ∨ (argv = magick_cmd f token width
             ∧ List.last argv "" = spec_png token width)))
  ∧ (∀ f token width,
       (f, token) ∈ svg_files -> width ∈ widths -> present s f = true ->
       completes (main W (fresh s)) = true ->
       ERun (inkscape_cmd f token width) ∈ trace (state_of (main W (fresh s)))).
Proof.
  split.
  - intros argv (f & b & z & Hfb & Hz & _ & Hargv)%run_in_trace.
    exists f, b, z.
    destruct (output_path_shape f b z Hfb Hz) as [Hshape Hstr].
    destruct (destination_of_cmds f b z Hfb Hz) as [Hdi Hdm].
    split; [done |]. split; [exact (token_of_entry f b Hfb) |].
    split; [exact Hz |]. split; [done |]. split; [done |].
    destruct Hargv as [-> | ->].
    + split; [done |]. left. split; [done |].
      unfold inkscape_cmd. cbn [lookup list_lookup]. by rewrite Hstr.
    + split; [done |]. right. split; [done |].
      unfold magick_cmd. cbn [List.last]. exact Hstr.
  - intros f b z Hfb Hz Hp Hc. apply normal_of_completes in Hc.
    by apply (inkscape_attempted W s _ f b z Hc).
Qed.

Lemma output_path_exact_witness :
  ∃ f token width,
    (f, token) ∈ svg_files
    ∧ destination (inkscape_cmd "synced-sports-icon.svg" "icon" 1024)
      = Some (output_path token width)
    ∧ path_str (output_path token width) = spec_png token width.
Proof.
  destruct (output_path_exact magick_only icon_only) as [Hshape Hall].
  destruct (Hshape (inkscape_cmd "synced-sports-icon.svg" "icon" 1024))
    as (f & token & width & Hfb & _ & _ & _ & Hstr & Hdest & _).
  - apply (Hall "synced-sports-icon.svg" "icon" 1024).
    + by_evaluation.
    + by_evaluation.
    + vm_compute. reflexivity.
    + vm_compute. reflexivity.
  - exists f, token, width. split; [exact Hfb | split; [exact Hdest | exact Hstr]].
Defined.

Lemma source_in_cmds f b z :
  path_str (svg_path f) ∈ inkscape_cmd f b z
  ∧ path_str (svg_path f) ∈ magick_cmd f b z.
Proof.
  split; unfold inkscape_cmd, magick_cmd.
  - right; left.
  - do 8 right; left.
Qed.

(** C7: a registry entry whose source file is missing is skipped whole:
    no command of the run mentions the source, neither rasteriser is
    launched for any of its widths, and none of its output files comes
    into being. *)
Theorem missing_source_skipped W s f b :
  (f, b) ∈ svg_files ->
  present s f = false ->
  (∀ argv, ERun argv ∈ trace (state_of (main W (fresh s))) ->
     path_str (svg_path f) ∉ argv)
  ∧ (∀ z, z ∈ widths ->
       (ERun (inkscape_cmd f b z) ∉ trace (state_of (main W (fresh s))))
       ∧ (ERun (magick_cmd f b z) ∉ trace (state_of (main W (fresh s))))
       ∧ (output_path b z ∈ files (state_of (main W (fresh s)))
          <-> output_path b z ∈ files s)).
Proof.
  intros Hfb Hmiss.
  assert (Hno : ∀ argv, ERun argv ∈ trace (state_of (main W (fresh s))) ->
                  path_str (svg_path f) ∉ argv).
  { intros argv (f' & b' & z' & Hfb' & Hz' & Hp' & Hargv)%run_in_trace Hin.
    assert (Hz0 : (32 : Z) ∈ widths) by by_evaluation.
    destruct (cmds_apart f b 32 f' b' z' Hfb Hz0 Hfb' Hz')
      as (_ & _ & _ & _ & Hi & Hm).
    assert (f = f') as <-.
    { destruct Hargv as [-> | ->]; [by apply Hi | by apply Hm]. }
    congruence. }
  split; [exact Hno |]. intros z Hz.
  destruct (source_in_cmds f b z) as [Hi Hm].
  split; [| split].
  - intros Hin. exact (Hno _ Hin Hi).
  - intros Hin. exact (Hno _ Hin Hm).
  - split; [| apply kept_in_run].
    intros [? | (f' & b' & z' & Hfb' & Hz' & Hp' & Heq & _)]%written_in_run;
      [done |].
    destruct (cmds_apart f b z f' b' z' Hfb Hz Hfb' Hz')
      as (_ & _ & _ & Hinj & _).
    pose proof (Hinj Heq) as Hk. injection Hk as <- <- <-. congruence.
Qed.

Lemma missing_source_skipped_witness :
  (ERun (magick_cmd "synced-sports-white.svg" "white" 256)
     ∉ trace (state_of (main magick_only (fresh icon_only))))
  ∧ (output_path "white" 256
     ∉ files (state_of (main magick_only (fresh icon_only)))).
Proof.
  destruct (missing_source_skipped magick_only icon_only
              "synced-sports-white.svg" "white") as [_ Hw].
  - by_evaluation.
  - vm_compute. reflexivity.
  - destruct (Hw 256) as (_ & Hm & Hf); [by_evaluation |].
    split; [exact Hm |]. rewrite Hf. by_evaluation.
Defined.

(** ** Runs with working input and output *)

Lemma convert_step_io W tr f b z :
  prints_work W -> convert_step W tr f b z = (convert_events W f b z, None).
Proof.
  intros Hp. unfold convert_step, convert_events. cbv zeta. rewrite !Hp.
  rewrite !bool_decide_eq_true_2 by done. rewrite !andb_true_r.
  by destruct (call_ok W (inkscape_cmd f b z) true),
              (call_ok W (magick_cmd f b z) false).
Qed.

Lemma entry_step_io W pres tr e :
  prints_work W -> can_look W (svg_path e.1) = true ->
  entry_step W pres tr e = (entry_events W pres e, None).
Proof.
  intros Hp Hlook. unfold entry_step, entry_events, can_look in *.
  rewrite Hp.
  destruct (access W (svg_path e.1)); [| | done];
    (destruct (pres e.1); [| done]);
    apply thread_pure; intros tr' z _; by apply convert_step_io.
Qed.

Lemma sweep_step_io W pres tr :
  io_works W -> sweep_step W pres tr = (sweep_events W pres, None).
Proof.
  intros [Hp Hlook]. apply thread_pure. intros tr' [f b] Hfb.
  apply entry_step_io; [done |]. by apply (Hlook f b).
Qed.

Lemma after_setup_io W pres tr :
  io_works W ->
  after_setup W pres tr
  = (EPrint opening_msg :: sweep_events W pres ++ [EPrint closing_msg], None).
Proof.
  intros Hio. unfold after_setup. rewrite (sweep_step_io _ _ _ Hio).
  destruct Hio as [Hp _]. by rewrite !Hp.
Qed.

(** Once the setup loop has returned, the run returns. *)
Lemma run_io W s s1 :
  io_works W -> create_size_dirs W (fresh s) = Normal tt s1 ->
  ∃ s', main W (fresh s) = Normal tt s' ∧ trace s' = run_trace W s.
Proof.
  intros Hio Hsetup.
  destruct (run_outcome W s)
    as [(e & s' & Hs & _) | (s1' & Hs & Hrun & Ht & _)]; [congruence |].
  rewrite Hrun, (after_setup_io _ _ _ Hio). unfold finish. cbn [fst snd].
  eexists. split; [reflexivity |]. simpl_state. by rewrite Ht.
Qed.

Lemma last_line_of_run W s s' :
  main W (fresh s) = Normal tt s' ->
  last (stdout_of (trace s')) = Some closing_msg.
Proof.
  intros Hrun. destruct (completed_run W s s' Hrun) as (evs & s1 & _ & _ & -> & _).
  change (EPrint opening_msg :: evs ++ [EPrint closing_msg])
    with (([EPrint opening_msg] ++ evs) ++ [EPrint closing_msg]).
  rewrite app_assoc, stdout_of_app. apply last_snoc.
Qed.

Lemma skip_line_of_entry W s s' f b :
  main W (fresh s) = Normal tt s' ->
  (f, b) ∈ svg_files -> present s f = false ->
  EPrint (skipping_msg f) ∈ trace s'.
Proof.
  intros Hrun Hfb Hp.
  destruct (completed_run W s s' Hrun) as (evs & s1 & _ & Hsw & -> & _).
  assert (Hn : (sweep_step W (present s)
                  (setup_trace ++ [EPrint opening_msg])).2 = None)
    by (by rewrite Hsw).
  destruct (thread_normal_each _ _ _ (f, b) Hn Hfb)
    as (pre & post & Heq & Hnone).
  fold (sweep_step W (present s) (setup_trace ++ [EPrint opening_msg])) in Heq.
  rewrite Hsw in Heq. cbn [fst] in Heq.
  rewrite (entry_step_missing _ _ _ _ _ Hnone Hp) in Heq. cbn [fst] in Heq.
  rewrite Heq. apply elem_of_app. right. right.
  apply elem_of_app. left. apply elem_of_app. right.
  apply elem_of_app. left. left.
Qed.

(** ** Where an exception that ends the run comes from *)

Lemma raised_thread {A} (step : list Event -> A -> Step) tr (l : list A) e :
  (thread step tr l).2 = Some e ->
  ∃ x tr', x ∈ l ∧ (step tr' x).2 = Some e
           ∧ tr ++ (thread step tr l).1 = tr' ++ (step tr' x).1.
Proof.
  intros (x & pre & Hx & Heq & Hsome)%thread_raised_at.
  exists x, (tr ++ pre). rewrite Heq, app_assoc. done.
Qed.

Lemma raised_convert W tr f b z e :
  (convert_step W tr f b z).2 = Some e ->
  print_error W (tr ++ (convert_step W tr f b z).1) (failed_msg f z) = Some e.
Proof.
  destruct (convert_step_cases W tr f b z)
    as [(-> & _) | [_ [[-> _] | [_ [-> | (e' & -> & Hp)]]]]];
    cbn [fst snd]; try done.
  intros [= <-]. rewrite <- Hp. f_equal. by rewrite <- app_assoc.
Qed.

Lemma raised_sweep W pres tr e :
  (sweep_step W pres tr).2 = Some e ->
  (∃ line, unguarded_line line
           ∧ print_error W (tr ++ (sweep_step W pres tr).1) line = Some e)
  ∨ (∃ f b why, (f, b) ∈ svg_files
       ∧ access W (svg_path f) = Unreachable why ∧ e = exn_of_errno why).
Proof.
  intros ([f b] & tr' & Hfb & Hsome & Heq)%raised_thread.
  unfold sweep_step. rewrite Heq. clear Heq. revert Hsome.
  unfold entry_step. cbn [fst snd].
  destruct (access W (svg_path f)) as [| why | why] eqn:Hacc;
    try (cbn [fst snd]; intros [= <-]; right; by exists f, b, why);
    (destruct (pres f);
     [ intros (z & tr'' & Hz & Hsome & ->)%raised_thread;
       left; exists (failed_msg f z);
       split; [do 3 right; by exists f, b, z | by apply raised_convert]
     | destruct (print_error W tr' (skipping_msg f)) as [ex |] eqn:Hpe;
       cbn [fst snd]; [| done];
       intros [= <-]; left; exists (skipping_msg f);
       split; [right; right; left; by exists f, b
              | by rewrite app_nil_r] ]).
Qed.

Lemma raised_after_setup W pres tr e :
  (after_setup W pres tr).2 = Some e ->
  (∃ line, unguarded_line line
           ∧ print_error W (tr ++ (after_setup W pres tr).1) line = Some e)
  ∨ (∃ f b why, (f, b) ∈ svg_files
       ∧ access W (svg_path f) = Unreachable why ∧ e = exn_of_errno why).
Proof.
  unfold after_setup.
  destruct (print_error W tr opening_msg) as [e0 |] eqn:Hop; cbn [fst snd].
  { intros [= <-]. left. exists opening_msg.
    split; [by left | by rewrite app_nil_r]. }
  cbv zeta.
  destruct (sweep_step W pres (tr ++ [EPrint opening_msg]))
    as [evs [e1 |]] eqn:Hsw; cbn [fst snd].
  - intros [= <-].
    destruct (raised_sweep W pres (tr ++ [EPrint opening_msg]) e1)
      as [(line & Hline & Hpe) | Hacc]; [by rewrite Hsw | | by right].
    left. exists line. split; [done |].
    rewrite Hsw in Hpe. cbn [fst] in Hpe. by rewrite <- app_assoc in Hpe.
  - destruct (print_error W ((tr ++ [EPrint opening_msg]) ++ evs) closing_msg)
      as [e2 |] eqn:Hcl; cbn [fst snd]; [| done].
    intros [= <-]. left. exists closing_msg.
    split; [right; by left |]. by rewrite <- app_assoc in Hcl.
Qed.

(** ** What a pair leaves in the trace of a run that returns *)

Lemma call_ok_text W argv :
  call_ok W argv true = true
  <-> ∃ out err, spawn W argv = Exits 0 out err
                 ∧ decodes W out = true ∧ decodes W err = true.
Proof.
  unfold call_ok. destruct (spawn W argv) as [rc out err | e]; cbn [negb orb].
  - rewrite andb_true_iff, andb_true_iff, Z.eqb_eq. split.
    + intros (-> & ? & ?). by exists out, err.
    + intros (out' & err' & [= -> -> ->] & ? & ?). done.
  - split; [done | by intros (? & ? & ? & _)].
Qed.

(** The Inkscape command is in the trace; then either its "Created" line
    is, and nothing else of the pair, or the ImageMagick command is and
    one of the two other lines. *)
Lemma pair_report W s s' f b z :
  main W (fresh s) = Normal tt s' ->
  (f, b) ∈ svg_files -> z ∈ widths -> present s f = true ->
  ERun (inkscape_cmd f b z) ∈ trace s'
  ∧ ((call_ok W (inkscape_cmd f b z) true = true
      ∧ EPrint (created_msg b z) ∈ trace s'
      ∧ (ERun (magick_cmd f b z) ∉ trace s')
      ∧ (EPrint (created_magick_msg b z) ∉ trace s')
      ∧ EPrint (failed_msg f z) ∉ trace s')
     ∨ ((call_ok W (inkscape_cmd f b z) true = false ∨ ¬ prints_work W)
        ∧ (EPrint (created_msg b z) ∉ trace s')
        ∧ ERun (magick_cmd f b z) ∈ trace s'
        ∧ ((call_ok W (magick_cmd f b z) false = true
            ∧ EPrint (created_magick_msg b z) ∈ trace s'
            ∧ EPrint (failed_msg f z) ∉ trace s')
           ∨ ((call_ok W (magick_cmd f b z) false = false ∨ ¬ prints_work W)
              ∧ (EPrint (created_magick_msg b z) ∉ trace s')
              ∧ EPrint (failed_msg f z) ∈ trace s')))).
Proof.
  intros Hrun Hfb Hz Hp.
  destruct (pair_outcome W s s' f b z Hrun Hfb Hz Hp)
    as (pre & post & Hfor & Hcases).
  destruct (cmds_apart f b z f b z Hfb Hz Hfb Hz) as (Hne & _).
  destruct (outcome_msgs_apart f b z f b z Hfb Hz Hfb Hz) as (Hcm & _).
  destruct (created_msgs_apart b z) as ((_ & _ & _ & Hx) & (_ & _ & _ & Hx')).
  assert (Hmem : ∀ own ev,
            ev = ERun (inkscape_cmd f b z) ∨ ev = ERun (magick_cmd f b z)
            ∨ ev = EPrint (created_msg b z)
            ∨ ev = EPrint (created_magick_msg b z)
            ∨ ev = EPrint (failed_msg f z) ->
            ev ∈ pre ++ own ++ post <-> ev ∈ own).
  { intros own ev Hk. by apply (own_in_trace W f b z). }
  assert (Hnp : ∀ tr line, print_error W tr line ≠ None -> ¬ prints_work W).
  { intros tr line Hpe Hpw. by apply Hpe. }
  destruct Hcases as [[-> Hok] | [Hfail [[-> Hok] | [-> Hfail']]]];
    rewrite !Hmem by tauto; rewrite !elem_of_cons, !elem_of_nil.
  - split; [tauto |]. left. split; [done |]. split; [tauto |].
    repeat split; intros [Heq | [Heq | []]]; event_eq Heq;
      first [by destruct Hne | by destruct Hcm | by destruct (Hx f z)
            | by destruct (Hx' f z)].
  - split; [tauto |]. right.
    split; [destruct Hfail as [? | ?%Hnp]; tauto |].
    split; [intros [Heq | [Heq | [Heq | []]]]; event_eq Heq; by destruct Hcm |].
    split; [tauto |]. left. split; [done |]. split; [tauto |].
    intros [Heq | [Heq | [Heq | []]]]; event_eq Heq. by destruct (Hx' f z).
  - split; [tauto |]. right.
    split; [destruct Hfail as [? | ?%Hnp]; tauto |].
    split; [intros [Heq | [Heq | [Heq | []]]]; event_eq Heq;
            by destruct (Hx f z) |].
    split; [tauto |]. right.
    split; [destruct Hfail' as [? | ?%Hnp]; tauto |].
    split; [| tauto].
    intros [Heq | [Heq | [Heq | []]]]; event_eq Heq. by destruct (Hx' f z).
Qed.

(** C2, as the code has it: in a run that returns, every pair whose
    source is there has its Inkscape command launched, and its
    ImageMagick command is launched if and only if the pair's plain
    "Created" line was not printed.  That line is printed only when
    Inkscape exited with status zero and both captured streams decoded
    as text (line 54 passes [text=True]).  When the standard output
    takes every line, ImageMagick is launched if and only if the
    Inkscape call did not get the script past it; a non-zero status, an
    exception of any class out of [subprocess.run] and output that does
    not decode all lead to the ImageMagick attempt alike. *)
Theorem secondary_iff_primary_fails W s s' f b z :
  (f, b) ∈ svg_files -> z ∈ widths ->
  present s f = true ->
  main W (fresh s) = Normal tt s' ->
  ERun (inkscape_cmd f b z) ∈ trace s'
  ∧ (ERun (magick_cmd f b z) ∈ trace s'
     <-> EPrint (created_msg b z) ∉ trace s')
  ∧ (EPrint (created_msg b z) ∈ trace s' ->
     ∃ out err, spawn W (inkscape_cmd f b z) = Exits 0 out err
                ∧ decodes W out = true ∧ decodes W err = true)
  ∧ (prints_work W ->
     (ERun (magick_cmd f b z) ∈ trace s'
      <-> ¬ ∃ out err, spawn W (inkscape_cmd f b z) = Exits 0 out err
                       ∧ decodes W out = true ∧ decodes W err = true))
  ∧ (∀ rc out err, spawn W (inkscape_cmd f b z) = Exits rc out err ->
       rc ≠ 0 -> ERun (magick_cmd f b z) ∈ trace s')
  ∧ (∀ e, spawn W (inkscape_cmd f b z) = Fails e ->
       ERun (magick_cmd f b z) ∈ trace s')
  ∧ (∀ out err, spawn W (inkscape_cmd f b z) = Exits 0 out err ->
       decodes W out && decodes W err = false ->
       ERun (magick_cmd f b z) ∈ trace s').
Proof.
  intros Hfb Hz Hp Hrun.
  destruct (pair_report W s s' f b z Hrun Hfb Hz Hp) as [Hink Hcases].
  assert (Hno : call_ok W (inkscape_cmd f b z) true = false ->
                ERun (magick_cmd f b z) ∈ trace s').
  { intros Hno. destruct Hcases as [[Hok _] | (_ & _ & Hm & _)];
      [congruence | done]. }
  split; [exact Hink |]. split; [| split; [| split; [| split; [| split]]]].
  - destruct Hcases as [(_ & Hc & Hm & _) | (_ & Hc & Hm & _)]; tauto.
  - intros Hc. apply call_ok_text.
    destruct Hcases as [(Hok & _) | (_ & Hnc & _)]; [done | tauto].
  - intros Hpw. rewrite <- call_ok_text.
    destruct Hcases as [(Hok & _ & Hm & _) | ([Hf | Hf] & _ & Hm & _)].
    + split; [done | intros Hn; by destruct Hn].
    + split; [intros _; congruence | done].
    + by destruct Hf.
  - intros rc out err Hs Hrc. apply Hno. unfold call_ok. rewrite Hs.
    apply andb_false_iff. left. by apply Z.eqb_neq.
  - intros e Hs. apply Hno. unfold call_ok. by rewrite Hs.
  - intros out err Hs Hdec. apply Hno. unfold call_ok. rewrite Hs, Hdec.
    reflexivity.
Qed.

Lemma secondary_iff_primary_fails_witness :
  ERun (inkscape_cmd "synced-sports-icon.svg" "icon" 64)
    ∈ trace (state_of (main magick_only (fresh icon_only)))
  ∧ ERun (magick_cmd "synced-sports-icon.svg" "icon" 64)
    ∈ trace (state_of (main magick_only (fresh icon_only))).
Proof.
  destruct (secondary_iff_primary_fails magick_only icon_only
              (state_of (main magick_only (fresh icon_only)))
              "synced-sports-icon.svg" "icon" 64)
    as (Hink & _ & _ & _ & _ & Hfail & _).
  - by_evaluation.
  - by_evaluation.
  - vm_compute. reflexivity.
  - apply normal_of_completes. vm_compute. reflexivity.
  - split; [exact Hink |]. apply (Hfail FileNotFoundError). reflexivity.
Defined.

(** C2, as the specification words it (success judged by the exit status
    alone), fails: Inkscape exits with status zero for the icon at 64
    pixels but writes a byte that does not decode; [subprocess.run],
    asked for text, raises inside the [try], and ImageMagick is launched
    for that pair although the exit status was zero. *)
Lemma zero_status_yet_fallback_counterexample :
  ("synced-sports-icon.svg", "icon") ∈ svg_files
  ∧ 64 ∈ widths
  ∧ present icon_only "synced-sports-icon.svg" = true
  ∧ completes (main garbled_inkscape (fresh icon_only)) = true
  ∧ spawn garbled_inkscape (inkscape_cmd "synced-sports-icon.svg" "icon" 64)
    = Exits 0 undecodable_byte ""
  ∧ ERun (magick_cmd "synced-sports-icon.svg" "icon" 64)
    ∈ trace (state_of (main garbled_inkscape (fresh icon_only))).
Proof.
  split; [by_evaluation |].
  split; [by_evaluation |].
  split; [vm_compute; reflexivity |].
  split; [vm_compute; reflexivity |].
  split; [reflexivity |].
  by_evaluation.
Qed.

(** C3, as the code has it: an exception out of the setup loop ends the
    run, and comes from one of its [mkdir] calls.  An exception that
    ends the run after setup comes from one of the statements outside
    every [try]: a [print] of the opening message, a skip notice, a
    "Could not convert" line or the closing message, or the existence
    check of a source.  When the standard output takes every line and
    the sources can be examined, a run whose setup has returned returns
    as well, whatever the rasterisers do: each pair whose source is
    there leaves the line that tells how it went, each missing source
    its skip notice, and the closing message is the last line. *)
Theorem fatal_errors_by_origin W s :
  (∀ e s1, create_size_dirs W (fresh s) = Raised e s1 ->
     main W (fresh s) = Raised e s1
     ∧ ∃ z t, z ∈ widths ∧ mkdir_p W (size_dir z) t = Raised e s1)
  ∧ (∀ e s', main W (fresh s) = Raised e s' ->
       create_size_dirs W (fresh s) = Raised e s'
       ∨ (completes (create_size_dirs W (fresh s)) = true
          ∧ ((∃ line, unguarded_line line ∧ print W line s' = Raised e s')
             ∨ (∃ f b, (f, b) ∈ svg_files
                  ∧ path_exists W (svg_path f) s' = Raised e s'))))
  ∧ (io_works W ->
     ∀ s1, create_size_dirs W (fresh s) = Normal tt s1 ->
       ∃ s', main W (fresh s) = Normal tt s'
         ∧ last (stdout_of (trace s')) = Some closing_msg
         ∧ ∀ f b, (f, b) ∈ svg_files ->
             if present s f then
               ∀ z, z ∈ widths ->
                 (if call_ok W (inkscape_cmd f b z) true
                  then created_msg b z
                  else if call_ok W (magick_cmd f b z) false
                       then created_magick_msg b z
                       else failed_msg f z)
                 ∈ stdout_of (trace s')
             else skipping_msg f ∈ stdout_of (trace s')).
Proof.
  split; [| split].
  - intros e s1 Hsetup. split.
    + rewrite main_spec. by rewrite Hsetup.
    + pose proof (mkdirs_spec W widths (fresh s)) as Hs. cbv zeta in Hs.
      rewrite <- create_size_dirs_flat, Hsetup in Hs.
      destruct Hs as (_ & _ & _ & _ & z & t & Hz & Hm & _). by exists z, t.
  - intros e s' Hrun.
    destruct (run_outcome W s)
      as [(e0 & s0 & Hs & Hm & _) | (s1 & Hs & Hm & Ht & _)].
    + left. rewrite Hm in Hrun. by injection Hrun as <- <-.
    + right. rewrite Hs. split; [reflexivity |].
      rewrite Hm in Hrun. unfold finish in Hrun.
      destruct (after_setup W (present s) setup_trace) as [evs [e1 |]] eqn:Has;
        cbn [fst snd] in Hrun; [| done].
      injection Hrun as <- <-.
      destruct (raised_after_setup W (present s) setup_trace e1)
        as [(line & Hline & Hpe) | (f & b & why & Hfb & Hacc & ->)];
        [by rewrite Has | |].
      * left. exists line. split; [done |]. unfold print. simpl_state.
        rewrite Has in Hpe. cbn [fst] in Hpe. by rewrite Ht, Hpe.
      * right. exists f, b. split; [done |]. unfold path_exists.
        by rewrite Hacc.
  - intros Hio s1 Hsetup.
    destruct (run_io W s s1 Hio Hsetup) as (s' & Hrun & _). exists s'.
    split; [done |]. split; [by apply (last_line_of_run W s) |].
    intros f b Hfb. destruct (present s f) eqn:Hp.
    + intros z Hz. apply elem_of_stdout_of. left.
      destruct Hio as [Hpw _].
      destruct (pair_report W s s' f b z Hrun Hfb Hz Hp)
        as [_ [(-> & ? & _)
              | ([Hi | ?] & _ & _ & [(Hm & ? & _) | ([Hm | ?] & _ & ?)])]];
        try done; by rewrite Hi, Hm.
    + apply elem_of_stdout_of. left. by apply (skip_line_of_entry W s s' f b).
Qed.

Lemma fatal_errors_by_origin_witness :
  (∃ s', main read_only (fresh icon_only) = Raised PermissionError s')
  ∧ ∃ s', main no_tools (fresh icon_only) = Normal tt s'
          ∧ last (stdout_of (trace s')) = Some closing_msg.
Proof.
  destruct (fatal_errors_by_origin read_only icon_only) as (Hfatal & _).
  destruct (fatal_errors_by_origin no_tools icon_only) as (_ & _ & Hdone).
  split.
  - exists (state_of (create_size_dirs read_only (fresh icon_only))).
    apply Hfatal, raised_of_exn. vm_compute. reflexivity.
  - destruct (Hdone (conj (fun _ _ => eq_refl) (fun _ _ _ => eq_refl))
                (state_of (create_size_dirs no_tools (fresh icon_only))))
      as (s' & Hrun & Hlast & _).
    + apply normal_of_completes. vm_compute. reflexivity.
    + exists s'. split; [exact Hrun | exact Hlast].
Defined.

(** C3, as the specification words it (fatal if and only if setup
    fails), fails: with a standard output that takes no line, setup
    returns, all six directories are made, and the run ends in the
    exception of the first [print], with no conversion attempted. *)
Lemma fatal_after_setup_counterexample :
  completes (create_size_dirs closed_stdout (fresh icon_only)) = true
  ∧ exn_of (main closed_stdout (fresh icon_only)) = Some BrokenPipeError
  ∧ trace (state_of (main closed_stdout (fresh icon_only))) = setup_trace.
Proof. repeat split; vm_compute; reflexivity. Qed.

(** C5, as the code has it: when setup has returned, the standard output
    takes every line, the sources can be examined and neither call gets
    the script past it for any pair, the run returns; every pair whose
    source is there goes through both attempts and ends in its "Could
    not convert ... - tools not available" line; no line beginning with
    "Created" is printed; the script writes no file of its own: a file
    that was not there before is the output of a pair, left by a tool
    that reported failure, and when the failing tools write nothing the
    set of files is what it was; the only directories made are those of
    setup; the closing message is the last line. *)
Theorem total_failure W s s1 :
  create_size_dirs W (fresh s) = Normal tt s1 ->
  io_works W ->
  (∀ f b z, (f, b) ∈ svg_files -> z ∈ widths ->
     call_ok W (inkscape_cmd f b z) true = false
     ∧ call_ok W (magick_cmd f b z) false = false) ->
  ∃ s', main W (fresh s) = Normal tt s'
    ∧ (∀ f b z, (f, b) ∈ svg_files -> z ∈ widths -> present s f = true ->
         ∃ pre post,
           trace s'
           = pre ++ [ ERun (inkscape_cmd f b z);
                      ERun (magick_cmd f b z);
                      EPrint ("Could not convert " +:+ f +:+ " to "
                                +:+ str_int z
                                +:+ "px PNG - tools not available") ]
                 ++ post)
    ∧ (∀ rest, "Created " +:+ rest ∉ stdout_of (trace s'))
    ∧ (∀ p, p ∈ files s' -> p ∉ files s ->
         ∃ f b z, (f, b) ∈ svg_files ∧ z ∈ widths ∧ present s f = true
           ∧ p = output_path b z
           ∧ (wrote W (inkscape_cmd f b z) = true
              ∨ wrote W (magick_cmd f b z) = true))
    ∧ ((∀ argv, config_run argv -> wrote W argv = false) ->
       files s' = files s)
    ∧ dirs s' = dirs s1
    ∧ last (stdout_of (trace s'))
      = Some (nl +:+ "PNG generation attempted. Some files may need manual conversion if tools are not installed.").
Proof.
  intros Hsetup Hio Hfail.
  destruct (run_io W s s1 Hio Hsetup) as (s' & Hrun & _). exists s'.
  destruct (completed_run W s s' Hrun)
    as (evs & s1' & Hs1' & Hsw & Ht & Hf & Hd & _).
  rewrite Hsetup in Hs1'. injection Hs1' as <-.
  assert (Hnew : ∀ p, p ∈ written W evs ->
            ∃ f b z, (f, b) ∈ svg_files ∧ z ∈ widths ∧ present s f = true
              ∧ p = output_path b z
              ∧ (wrote W (inkscape_cmd f b z) = true
                 ∨ wrote W (magick_cmd f b z) = true)).
  { intros p (argv & Hev & Hp)%elem_of_written.
    assert (Hev' : ERun argv ∈ (sweep_step W (present s)
                      (setup_trace ++ [EPrint opening_msg])).1)
      by (by rewrite Hsw).
    apply run_of_sweep_step in Hev' as (f & b & z & Hfb & Hz & Hpres & Hargv).
    destruct (destination_of_cmds f b z Hfb Hz) as [Hi Hm].
    exists f, b, z. do 3 (split; [done |]).
    unfold child_writes in Hp.
    destruct (wrote W argv) eqn:Hw; [| by apply elem_of_empty in Hp].
    destruct Hargv as [-> | ->]; rewrite ?Hi, ?Hm in Hp;
      apply elem_of_singleton in Hp; auto. }
  split; [done |]. split; [| split; [| split; [| split; [| split]]]].
  - intros f b z Hfb Hz Hp.
    destruct (Hfail f b z Hfb Hz) as [Hi Hm]. destruct Hio as [Hpw _].
    destruct (pair_outcome W s s' f b z Hrun Hfb Hz Hp)
      as (pre & post & _ & [[_ ?] | [_ [[_ ?] | [Heq _]]]]);
      [congruence | congruence |].
    by exists pre, post.
  - intros rest [Hev | Hev]%elem_of_stdout_of;
      [| by destruct (child_event_not_in_run W s ("Created " +:+ rest)) as [Hc _];
         rewrite Hrun in Hc].
    pose proof (event_of_run W s (EPrint ("Created " +:+ rest))) as Hor.
    rewrite Hrun in Hor.
    destruct (Hor Hev)
      as [(? & _ & ?) | [? | [? | [(? & ? & _ & _ & ?)
         | (f & b & z & tr' & Hfb & Hz & _ & Hev')]]]]; try discriminate.
    destruct (Hfail f b z Hfb Hz) as [Hi Hm].
    apply event_of_convert_step in Hev'
      as [? | [? | [[_ ?] | [[_ ?] | ?]]]]; try discriminate; congruence.
  - intros p Hp Hnp. rewrite Hf in Hp.
    apply elem_of_union in Hp as [? | Hp]; [done | by apply Hnew].
  - intros Hnone. rewrite Hf. apply (anti_symm (⊆)); [| apply union_subseteq_l].
    apply union_least; [done |].
    intros p (f & b & z & Hfb & Hz & _ & _ & Hw)%Hnew.
    rewrite !Hnone in Hw; [by destruct Hw | |]; exists f, b, z; auto.
  - exact Hd.
  - by apply (last_line_of_run W s).
Qed.

Lemma total_failure_witness :
  ∃ s', main no_tools (fresh icon_only) = Normal tt s'
        ∧ files s' = files icon_only
        ∧ last (stdout_of (trace s')) = Some closing_msg.
Proof.
  destruct (total_failure no_tools icon_only
              (state_of (create_size_dirs no_tools (fresh icon_only))))
    as (s' & Hrun & _ & _ & _ & Hf & _ & Hlast).
  - apply normal_of_completes. vm_compute. reflexivity.
  - split; [intros tr line | intros f b _]; reflexivity.
  - intros f b z _ _. split; reflexivity.
  - exists s'. split; [exact Hrun |]. split; [| exact Hlast].
    apply Hf. intros argv _. reflexivity.
Defined.

(** C5, as the specification words it (with both tools failing the run
    still reaches its closing line), fails: on a tree where nothing can
    be made and with neither tool installed, the run ends in the
    exception of the first [mkdir]; no "Could not convert" line and no
    closing line is printed. *)
Lemma crash_with_both_tools_failing_counterexample :
  (∀ argv, call_ok read_only_no_tools argv true = false
           ∧ call_ok read_only_no_tools argv false = false)
  ∧ present icon_only "synced-sports-icon.svg" = true
  ∧ exn_of (main read_only_no_tools (fresh icon_only)) = Some PermissionError
  ∧ stdout_of (trace (state_of (main read_only_no_tools (fresh icon_only))))
    = [].
Proof.
  split; [intros argv; split; reflexivity |].
  repeat split; vm_compute; reflexivity.
Qed.

(** ** The size directories *)







(** ** Running again *)

Lemma convert_step_ext W W' tr f b z :
  (∀ argv text, call_ok W' argv text = call_ok W argv text) ->
  (∀ tr line, print_error W' tr line = print_error W tr line) ->
  convert_step W' tr f b z = convert_step W tr f b z.
Proof. intros Hc Hp. unfold convert_step. by rewrite !Hc, !Hp. Qed.

Lemma after_setup_ext W W' pres pres' tr :
  (∀ argv text, call_ok W' argv text = call_ok W argv text) ->
  (∀ tr line, print_error W' tr line = print_error W tr line) ->
  (∀ f b, (f, b) ∈ svg_files -> access W' (svg_path f) = access W (svg_path f)) ->
  (∀ f b, (f, b) ∈ svg_files -> pres' f = pres f) ->
  after_setup W' pres' tr = after_setup W pres tr.
Proof.
  intros Hc Hp Ha Hpres.
  assert (Hsw : ∀ tr0, sweep_step W' pres' tr0 = sweep_step W pres tr0).
  { intros tr0. apply thread_ext. intros tr1 [f b] Hfb.
    unfold entry_step. cbn [fst snd].
    rewrite (Ha f b Hfb), (Hpres f b Hfb), Hp.
    rewrite (thread_ext (fun tr' z => convert_step W' tr' f b z)
               (fun tr' z => convert_step W tr' f b z)); [done |].
    intros tr2 z _. by apply convert_step_ext. }
  unfold after_setup. by rewrite !Hsw, !Hp.
Qed.

(** C8: the two commands of a pair name one and the same output path; a
    run on the same sources, with tools that get the script past the
    same calls and the same surroundings, launches the same commands, on
    the same paths, and prints the same; and a second run on the
    filesystem the first one left returns, repeats that trace and
    leaves the sets of files and of directories as they were. *)
Theorem rerun_idempotent W s s1 :
  main W (fresh s) = Normal tt s1 ->
  (∀ f b z, (f, b) ∈ svg_files -> z ∈ widths ->
     destination (inkscape_cmd f b z) = Some (output_path b z)
     ∧ destination (magick_cmd f b z) = Some (output_path b z)
     ∧ path_str (output_path b z) = spec_png b z)
  ∧ (∀ W' t t1,
       (∀ argv text, call_ok W' argv text = call_ok W argv text) ->
       (∀ tr line, print_error W' tr line = print_error W tr line) ->
       (∀ f b, (f, b) ∈ svg_files ->
          access W' (svg_path f) = access W (svg_path f)) ->
       (∀ f b, (f, b) ∈ svg_files -> present t f = present s f) ->
       main W' (fresh t) = Normal tt t1 ->
       trace t1 = trace s1 ∧ targets (trace t1) = targets (trace s1))
  ∧ ∃ s2, main W (fresh s1) = Normal tt s2
          ∧ trace s2 = trace s1
          ∧ targets (trace s2) = targets (trace s1)
          ∧ files s2 = files s1
          ∧ dirs s2 = dirs s1.
Proof.
  intros Hrun.
  destruct (run_outcome W s)
    as [(e & s' & _ & Hm & _) | (s0 & Hs0 & Hm & Ht0 & Hf0 & _)];
    [congruence |].
  rewrite Hm in Hrun. unfold finish in Hrun.
  destruct (after_setup W (present s) setup_trace) as [evs [e |]] eqn:Has;
    cbn [fst snd] in Hrun; [done |].
  injection Hrun as <-. simpl_state. rewrite Ht0, Hf0.
  split; [| split].
  - intros f b z Hfb Hz.
    destruct (destination_of_cmds f b z Hfb Hz) as [? ?].
    destruct (output_path_shape f b z Hfb Hz) as [_ ?]. done.
  - intros W' t t1 Hc Hp Ha Hpres Hrun'.
    destruct (run_outcome W' t)
      as [(e & s' & _ & Hm' & _) | (t0 & _ & Hm' & Ht0' & _)];
      [congruence |].
    rewrite Hm', (after_setup_ext W W' (present s) (present t) _ Hc Hp Ha Hpres),
      Has in Hrun'.
    unfold finish in Hrun'. cbn [fst snd] in Hrun'.
    injection Hrun' as <-. simpl_state. by rewrite Ht0'.
  - destruct (mkdirs_existing W widths
                (fresh (emit evs (written W evs) s0)))
      as (s1' & Hsetup & Hd' & Hf' & Ht').
    { intros z Hz. simpl_state.
      pose proof (mkdirs_spec W widths (fresh s)) as Hs. cbv zeta in Hs.
      rewrite <- create_size_dirs_flat, Hs0 in Hs.
      destruct Hs as (_ & _ & _ & _ & Hd). exact (Hd z Hz). }
    rewrite <- create_size_dirs_flat in Hsetup.
    rewrite main_spec, Hsetup, Ht'. simpl_state. rewrite app_nil_l.
    fold setup_trace.
    rewrite (after_setup_ext W W (present s)
               (present (fresh (emit evs (written W evs) s0))) setup_trace);
      [| done | done | done |].
    + rewrite Has. unfold finish. cbn [fst snd].
      eexists. split; [reflexivity |]. simpl_state.
      rewrite Ht', Hf', Hd', Hf0. rewrite app_nil_l. fold setup_trace.
      split; [done |]. split; [done |]. split; [| done].
      rewrite <- (assoc_L (∪)). by rewrite (idemp_L (∪)).
    + intros f b Hfb.
      pose proof (run_keeps_sources W s f b Hfb) as Hk.
      rewrite Hm, state_of_finish in Hk. exact Hk.
Qed.

Lemma rerun_idempotent_witness :
  ∃ s2, main magick_only
          (fresh (state_of (main magick_only (fresh icon_only))))
        = Normal tt s2
        ∧ trace s2 = trace (state_of (main magick_only (fresh icon_only)))
        ∧ files s2 = files (state_of (main magick_only (fresh icon_only))).
Proof.
  destruct (rerun_idempotent magick_only icon_only
              (state_of (main magick_only (fresh icon_only))))
    as (_ & _ & s2 & Hrun & Ht & _ & Hf & _).
  - apply normal_of_completes. vm_compute. reflexivity.
  - exists s2. split; [exact Hrun | split; [exact Ht | exact Hf]].
Defined.

(** ** Exceptions out of the waits, and what the children write *)

(** C9: the handlers are bare [except:] clauses, so an exception of any
    class out of the wait on Inkscape, [KeyboardInterrupt] and
    [SystemExit] included, is caught: ImageMagick is tried for that
    pair, whatever the state the pair is reached in; if its wait ends
    the same way the "Could not convert" line is printed; and, with a
    standard output that takes every line and sources that can be
    examined, the run goes on to its closing message. *)
Theorem interrupt_is_absorbed W s s1 f b z e :
  create_size_dirs W (fresh s) = Normal tt s1 ->
  (f, b) ∈ svg_files -> z ∈ widths ->
  present s f = true ->
  spawn W (inkscape_cmd f b z) = Fails e ->
  (∀ (h : M unit) t, try_except (raise e) h t = h t)
  ∧ (∀ t, ∃ post,
       trace (state_of (convert W f b z t))
       = trace t ++ ERun (inkscape_cmd f b z)
                 :: ERun (magick_cmd f b z) :: post)
  ∧ (∀ s', main W (fresh s) = Normal tt s' ->
       ERun (magick_cmd f b z) ∈ trace s'
       ∧ (∀ e', spawn W (magick_cmd f b z) = Fails e' ->
            ∃ pre post,
              trace s' = pre ++ [ ERun (inkscape_cmd f b z);
                                  ERun (magick_cmd f b z);
                                  EPrint (failed_msg f z) ] ++ post))
  ∧ (io_works W ->
     ∃ s', main W (fresh s) = Normal tt s'
          ∧ ERun (magick_cmd f b z) ∈ trace s'
          ∧ (∀ e', spawn W (magick_cmd f b z) = Fails e' ->
               ∃ pre post,
                 trace s' = pre ++ [ ERun (inkscape_cmd f b z);
                                     ERun (magick_cmd f b z);
                                     EPrint (failed_msg f z) ] ++ post)
          ∧ last (stdout_of (trace s')) = Some closing_msg).
Proof.
  intros Hsetup Hfb Hz Hp Hint.
  assert (Hno : call_ok W (inkscape_cmd f b z) true = false)
    by (unfold call_ok; by rewrite Hint).
  assert (Hdone : ∀ s', main W (fresh s) = Normal tt s' ->
            ERun (magick_cmd f b z) ∈ trace s'
            ∧ (∀ e', spawn W (magick_cmd f b z) = Fails e' ->
                 ∃ pre post,
                   trace s' = pre ++ [ ERun (inkscape_cmd f b z);
                                       ERun (magick_cmd f b z);
                                       EPrint (failed_msg f z) ] ++ post)).
  { intros s' Hrun. split.
    - destruct (pair_report W s s' f b z Hrun Hfb Hz Hp)
        as [_ [(Hok & _) | (_ & _ & Hm & _)]]; [congruence | done].
    - intros e' Hint'.
      assert (Hno' : call_ok W (magick_cmd f b z) false = false)
        by (unfold call_ok; by rewrite Hint').
      destruct (pair_outcome W s s' f b z Hrun Hfb Hz Hp)
        as (pre & post & _ & [[_ ?] | [_ [[_ ?] | [Heq _]]]]);
        [congruence | congruence |].
      by exists pre, post. }
  split; [reflexivity |]. split; [| split; [exact Hdone |]].
  - intros t. rewrite convert_spec, state_of_finish. simpl_state.
    destruct (convert_step_cases W (trace t) f b z)
      as [(_ & Hok & _) | [_ [[-> _] | [_ [-> | (e' & -> & _)]]]]];
      [congruence | | |]; cbn [fst]; eauto.
  - intros Hio. destruct (run_io W s s1 Hio Hsetup) as (s' & Hrun & _).
    exists s'. destruct (Hdone s' Hrun) as [Hm Hf].
    split; [done |]. split; [done |]. split; [done |].
    by apply (last_line_of_run W s).
Qed.

Lemma interrupt_is_absorbed_witness :
  is_Exception KeyboardInterrupt = false
  ∧ ∃ s', main interrupted (fresh icon_only) = Normal tt s'
        ∧ ERun (magick_cmd "synced-sports-icon.svg" "icon" 128) ∈ trace s'
        ∧ last (stdout_of (trace s')) = Some closing_msg.
Proof.
  destruct (interrupt_is_absorbed interrupted icon_only
              (state_of (create_size_dirs interrupted (fresh icon_only)))
              "synced-sports-icon.svg" "icon" 128 KeyboardInterrupt)
    as (_ & _ & _ & Hio).
  - apply normal_of_completes. vm_compute. reflexivity.
  - by_evaluation.
  - by_evaluation.
  - vm_compute. reflexivity.
  - reflexivity.
  - destruct (Hio (conj (fun _ _ => eq_refl) (fun _ _ _ => eq_refl)))
      as (s' & Hrun & Hm & _ & Hlast).
    split; [reflexivity |].
    exists s'. split; [exact Hrun | split; [exact Hm | exact Hlast]].
Defined.

Lemma outcome_msgs_literal f b z :
  (f, b) ∈ svg_files -> z ∈ widths ->
  created_msg b z
  = "Created synced-sports-" +:+ b +:+ "-" +:+ str_int z +:+ ".png"
  ∧ created_magick_msg b z
    = "Created synced-sports-" +:+ b +:+ "-" +:+ str_int z
        +:+ ".png (with ImageMagick)".
Proof.
  intros Hfb Hz.
  assert (H : Forall (fun e : string * string => Forall (fun z =>
            created_msg e.2 z
            = "Created synced-sports-" +:+ e.2 +:+ "-" +:+ str_int z +:+ ".png"
            ∧ created_magick_msg e.2 z
              = "Created synced-sports-" +:+ e.2 +:+ "-" +:+ str_int z
                  +:+ ".png (with ImageMagick)")
            widths) svg_files) by by_evaluation.
  rewrite Forall_forall in H. specialize (H _ Hfb).
  rewrite Forall_forall in H. exact (H _ Hz).
Qed.

(** C10: both calls pass [capture_output=True] and nothing reads the
    captured text, so what the children write never reaches the
    standard output: every line on it is one of the script's own status
    lines, and no child text is in the trace, whether the attempts fail
    or not. *)
Theorem child_output_discarded W s :
  (∀ line, line ∈ stdout_of (trace (state_of (main W (fresh s)))) ->
     status_line line)
  ∧ (∀ text,
       (EChildOut text ∉ trace (state_of (main W (fresh s))))
       ∧ (EChildErr text ∉ trace (state_of (main W (fresh s))))).
Proof.
  split; [| apply child_event_not_in_run].
  intros line [Hev | Hev]%elem_of_stdout_of;
    [| by destruct (child_event_not_in_run W s line)].
  assert (Hz0 : (32 : Z) ∈ widths) by by_evaluation.
  apply event_of_run in Hev
    as [(? & _ & ?) | [Heq | [Heq | [(f & b & Hfb & _ & Heq)
       | (f & b & z & tr' & Hfb & Hz & _ & Hev)]]]]; [done | | | |].
  - apply EPrint_inj in Heq as ->. by left.
  - apply EPrint_inj in Heq as ->. right. by left.
  - apply EPrint_inj in Heq as ->. right. right. exists f, b, 32.
    split; [done |]. split; [done |]. by left.
  - right. right. exists f, b, z. split; [done |]. split; [done |].
    destruct (outcome_msgs_literal f b z Hfb Hz) as [Hc Hcm].
    apply event_of_convert_step in Hev
      as [? | [? | [[Heq _] | [[Heq _] | Heq]]]]; try discriminate;
      apply EPrint_inj in Heq as ->; rewrite <- ?Hc, <- ?Hcm; tauto.
Qed.

Lemma child_output_discarded_witness :
  ("inkscape: cannot open display"
     ∉ stdout_of (trace (state_of (main noisy_tools (fresh icon_only)))))
  ∧ EChildErr "inkscape: cannot open display"
    ∉ trace (state_of (main noisy_tools (fresh icon_only))).
Proof.
  destruct (child_output_discarded noisy_tools icon_only) as [Hline Hchild].
  split; [| apply Hchild].
  intros Hin. apply Hline in Hin.
  destruct Hin as [Hin | [Hin | (f & b & z & _ & _ & [Hin | [Hin | [Hin | Hin]]])]];
    discriminate Hin.
Defined.

(** ** More of the sweep *)

Lemma runs_of_mkdirs (l : list Z) : runs_of (EMkdir ∘ size_dir <$> l) = [].
Proof. induction l; [reflexivity | exact IHl]. Qed.

Lemma bind_filter_cond {A B} (p : A -> bool) (k : A -> list B) (l : list A) :
  l ≫= (fun x => if p x then k x else []) = List.filter p l ≫= k.
Proof.
  induction l as [| x l IH]; [reflexivity |].
  rewrite bind_cons, IH. cbn [List.filter].
  destruct (p x); [by rewrite bind_cons | reflexivity].
Qed.

Lemma bind_singleton_cond {A B} (q : A -> bool) (k : A -> B) (l : list A) :
  l ≫= (fun x => if q x then [] else [k x])
  = k <$> List.filter (fun x => negb (q x)) l.
Proof.
  induction l as [| x l IH]; [reflexivity |].
  rewrite bind_cons, IH. cbn [List.filter].
  destruct (q x); reflexivity.
Qed.

Lemma bind_singleton_fmap {A B} (k : A -> B) (l : list A) :
  l ≫= (fun x => [k x]) = k <$> l.
Proof.
  induction l as [| x l IH]; [reflexivity |].
  by rewrite bind_cons, IH.
Qed.

Lemma filter_runs_app (p : list string -> bool) tr tr' :
  List.filter p (runs_of (tr ++ tr'))
  = List.filter p (runs_of tr) ++ List.filter p (runs_of tr').
Proof. by rewrite runs_of_app, List.filter_app. Qed.

(** The commands of a run that returned are those of its sweep. *)
Lemma runs_of_completed_run W s s' :
  main W (fresh s) = Normal tt s' ->
  ∃ evs, sweep_step W (present s) (setup_trace ++ [EPrint opening_msg])
         = (evs, None)
         ∧ runs_of (trace s') = runs_of evs
         ∧ stdout_of (trace s') = opening_msg :: stdout_of evs ++ [closing_msg].
Proof.
  intros Hrun.
  destruct (completed_run W s s' Hrun) as (evs & s1 & _ & Hsw & -> & _).
  exists evs. split; [done |].
  change (EPrint opening_msg :: evs ++ [EPrint closing_msg])
    with ([EPrint opening_msg] ++ evs ++ [EPrint closing_msg]).
  rewrite !runs_of_app, !stdout_of_app. unfold setup_trace.
  rewrite runs_of_mkdirs, stdout_of_mkdirs. cbn. by rewrite app_nil_r.
Qed.

(** X1: the Inkscape commands of a run that returns are, in this order
    and each once, those of the registry entries whose source is there,
    entry by entry in registry order and, within an entry, width by
    width in catalogue order (lines 35-54). *)
Theorem inkscape_commands_in_order W s s' :
  main W (fresh s) = Normal tt s' ->
  List.filter runs_inkscape (runs_of (trace s')) = expected_inkscape s.
Proof.
  intros Hrun.
  destruct (runs_of_completed_run W s s' Hrun) as (evs & Hsw & -> & _).
  assert (Hn : (sweep_step W (present s)
                  (setup_trace ++ [EPrint opening_msg])).2 = None)
    by (by rewrite Hsw).
  pose proof (thread_normal_bind (entry_step W (present s))
                (fun tr => List.filter runs_inkscape (runs_of tr))
                (fun e => if present s e.1
                          then inkscape_cmd e.1 e.2 <$> widths else [])
                (setup_trace ++ [EPrint opening_msg]) svg_files
                eq_refl (filter_runs_app _)) as Hb.
  fold (sweep_step W (present s) (setup_trace ++ [EPrint opening_msg])) in Hb.
  rewrite Hsw in Hb. cbn [fst snd] in Hb. rewrite Hb; [| | done].
  - unfold expected_inkscape, present_entries.
    by rewrite (bind_filter_cond (fun e => present s e.1)).
  - intros tr' [f b] Hfb Hnone. cbn [fst snd].
    destruct (present s f) eqn:Hp.
    + pose proof (entry_step_present _ _ _ _ _ Hnone Hp) as Heq.
      rewrite Heq in Hnone |- *. clear Heq.
      rewrite (thread_normal_bind _
                 (fun tr => List.filter runs_inkscape (runs_of tr))
                 (fun z => [inkscape_cmd f b z]) tr' widths
                 eq_refl (filter_runs_app _)); [apply bind_singleton_fmap | | done].
      intros tr'' z Hz Hnone'.
      destruct (convert_step_cases W tr'' f b z)
        as [(Heq & _) | [_ [[Heq _] | [_ [Heq | (e & Heq & _)]]]]];
        rewrite Heq in *; done.
    + by rewrite (entry_step_missing _ _ _ _ _ Hnone Hp).
Qed.

Lemma inkscape_commands_in_order_witness :
  List.filter runs_inkscape
    (runs_of (trace (state_of (main magick_only (fresh icon_only)))))
  = inkscape_cmd "synced-sports-icon.svg" "icon" <$> widths.
Proof.
  rewrite (inkscape_commands_in_order magick_only icon_only).
  - vm_compute. reflexivity.
  - apply normal_of_completes. vm_compute. reflexivity.
Defined.

(** X2: with a standard output that takes every line, the ImageMagick
    commands of a run that returns are, in sweep order and each once,
    exactly those of the pairs whose Inkscape call did not get the
    script past it: it raised, exited with a status other than zero, or
    wrote what does not decode (lines 54-70). *)
Theorem magick_commands_in_order W s s' :
  prints_work W ->
  main W (fresh s) = Normal tt s' ->
  List.filter (negb ∘ runs_inkscape) (runs_of (trace s'))
  = expected_magick W s.
Proof.
  intros Hpw Hrun.
  destruct (runs_of_completed_run W s s' Hrun) as (evs & Hsw & -> & _).
  assert (Hn : (sweep_step W (present s)
                  (setup_trace ++ [EPrint opening_msg])).2 = None)
    by (by rewrite Hsw).
  pose proof (thread_normal_bind (entry_step W (present s))
                (fun tr => List.filter (negb ∘ runs_inkscape) (runs_of tr))
                (fun e => if present s e.1
                          then magick_cmd e.1 e.2 <$>
                                 List.filter
                                   (fun z => negb (call_ok W
                                      (inkscape_cmd e.1 e.2 z) true)) widths
                          else [])
                (setup_trace ++ [EPrint opening_msg]) svg_files
                eq_refl (filter_runs_app _)) as Hb.
  fold (sweep_step W (present s) (setup_trace ++ [EPrint opening_msg])) in Hb.
  rewrite Hsw in Hb. cbn [fst snd] in Hb. rewrite Hb; [| | done].
  - unfold expected_magick, present_entries.
    by rewrite (bind_filter_cond (fun e => present s e.1)).
  - intros tr' [f b] Hfb Hnone. cbn [fst snd].
    destruct (present s f) eqn:Hp.
    + pose proof (entry_step_present _ _ _ _ _ Hnone Hp) as Heq.
      rewrite Heq in Hnone |- *. clear Heq.
      rewrite (thread_normal_bind _
                 (fun tr => List.filter (negb ∘ runs_inkscape) (runs_of tr))
                 (fun z => if call_ok W (inkscape_cmd f b z) true
                           then [] else [magick_cmd f b z]) tr' widths
                 eq_refl (filter_runs_app _));
        [apply bind_singleton_cond | | done].
      intros tr'' z Hz _. rewrite (convert_step_io _ _ _ _ _ Hpw).
      unfold convert_events. cbn [fst].
      by destruct (call_ok W (inkscape_cmd f b z) true),
                  (call_ok W (magick_cmd f b z) false).
    + by rewrite (entry_step_missing _ _ _ _ _ Hnone Hp).
Qed.

Lemma magick_commands_in_order_witness :
  List.filter (negb ∘ runs_inkscape)
    (runs_of (trace (state_of (main garbled_inkscape (fresh icon_only)))))
  = magick_cmd "synced-sports-icon.svg" "icon" <$> widths.
Proof.
  rewrite (magick_commands_in_order garbled_inkscape icon_only).
  - vm_compute. reflexivity.
  - intros tr line. reflexivity.
  - apply normal_of_completes. vm_compute. reflexivity.
Defined.

Lemma runs_of_convert_step W tr f b z argv :
  argv ∈ runs_of (convert_step W tr f b z).1 ->
  argv = inkscape_cmd f b z ∨ argv = magick_cmd f b z.
Proof.
  intros Hev%elem_of_runs_of.
  apply event_of_convert_step in Hev
    as [Heq | [Heq | [[Heq _] | [[Heq _] | Heq]]]]; try discriminate;
    apply ERun_inj in Heq; auto.
Qed.

Lemma runs_of_convert_step_NoDup W tr f b z :
  (f, b) ∈ svg_files -> z ∈ widths ->
  NoDup (runs_of (convert_step W tr f b z).1).
Proof.
  intros Hfb Hz.
  destruct (cmds_apart f b z f b z Hfb Hz Hfb Hz) as (Hne & _).
  assert (H2 : NoDup [inkscape_cmd f b z; magick_cmd f b z]).
  { apply NoDup_cons. split; [| apply NoDup_singleton].
    by intros ?%list_elem_of_singleton. }
  destruct (convert_step_cases W tr f b z)
    as [(-> & _) | [_ [[-> _] | [_ [-> | (e & -> & _)]]]]];
    [apply NoDup_singleton | exact H2 | exact H2 | exact H2].
Qed.

Lemma runs_of_entry_step_NoDup W pres tr f b :
  (f, b) ∈ svg_files -> NoDup (runs_of (entry_step W pres tr (f, b)).1).
Proof.
  intros Hfb. unfold entry_step. cbn [fst snd].
  assert (Hw : ∀ tr0, NoDup (runs_of
             (thread (fun tr' z => convert_step W tr' f b z) tr0 widths).1)).
  { intros tr0. apply thread_runs_NoDup; [apply widths_NoDup | |].
    - intros tr' z Hz. by apply runs_of_convert_step_NoDup.
    - intros tr1 tr2 z z' c Hz Hz' H1 H2.
      destruct (cmds_apart f b z f b z' Hfb Hz Hfb Hz') as (Hne & Hi & Hm & _).
      destruct (cmds_apart f b z' f b z Hfb Hz' Hfb Hz) as (Hne' & _).
      apply runs_of_convert_step in H1 as [-> | ->];
        apply runs_of_convert_step in H2 as [H2 | H2].
      + pose proof (Hi H2) as Hk. by injection Hk.
      + by destruct Hne.
      + by destruct Hne'.
      + pose proof (Hm H2) as Hk. by injection Hk. }
  destruct (access W (svg_path f)); [| | apply NoDup_nil_2];
    (destruct (pres f); [apply Hw |]);
    destruct (print_error W tr (skipping_msg f)); apply NoDup_nil_2.
Qed.

(** X3: no command line is launched twice in a run (lines 35-70). *)
Theorem no_command_twice W s :
  NoDup (runs_of (trace (state_of (main W (fresh s))))).
Proof.
  destruct (run_outcome W s)
    as [(e & s' & _ & -> & _ & k & Ht) | (s1 & _ & -> & Ht & _)].
  - simpl_state. rewrite Ht, runs_of_mkdirs. apply NoDup_nil_2.
  - rewrite state_of_finish. simpl_state. rewrite Ht, runs_of_app.
    unfold setup_trace at 1. rewrite runs_of_mkdirs, app_nil_l.
    assert (Hsw : NoDup (runs_of (sweep_step W (present s)
                           (setup_trace ++ [EPrint opening_msg])).1)).
    { apply thread_runs_NoDup; [apply registry_NoDup | |].
      - intros tr' [f b] Hfb. by apply runs_of_entry_step_NoDup.
      - intros tr1 tr2 [f b] [f' b'] c Hfb Hfb' H1 H2.
        apply elem_of_runs_of, run_of_entry_step in H1 as (_ & z & Hz & H1).
        apply elem_of_runs_of, run_of_entry_step in H2 as (_ & z' & Hz' & H2).
        destruct (cmds_apart f b z f' b' z' Hfb Hz Hfb' Hz')
          as (Hne & Hi & Hm & _).
        destruct (cmds_apart f' b' z' f b z Hfb' Hz' Hfb Hz) as (Hne' & _).
        destruct H1 as [-> | ->]; destruct H2 as [H2 | H2].
        + pose proof (Hi H2) as Hk. by injection Hk as -> -> _.
        + by destruct Hne.
        + by destruct Hne'.
        + pose proof (Hm H2) as Hk. by injection Hk as -> -> _. }
    unfold after_setup.
    destruct (print_error W setup_trace opening_msg); cbn [fst snd];
      [apply NoDup_nil_2 |]. cbv zeta.
    destruct (sweep_step W (present s) (setup_trace ++ [EPrint opening_msg]))
      as [evs [e |]]; cbn [fst snd] in *; [exact Hsw |].
    destruct (print_error W _ closing_msg); cbn [fst]; [exact Hsw |].
    change (EPrint opening_msg :: evs ++ [EPrint closing_msg])
      with ([EPrint opening_msg] ++ evs ++ [EPrint closing_msg]).
    rewrite !runs_of_app. cbn. by rewrite app_nil_r.
Qed.

Lemma length_stdout_app tr tr' :
  length (stdout_of (tr ++ tr'))
  = (length (stdout_of tr) + length (stdout_of tr'))%nat.
Proof. by rewrite stdout_of_app, length_app. Qed.

Lemma sum_list_cond {A} (p : A -> bool) (a b : nat) (l : list A) :
  sum_list ((fun x => if p x then a else b) <$> l)
  = (b * length (List.filter (fun x => negb (p x)) l)
     + a * length (List.filter p l))%nat.
Proof.
  induction l as [| x l IH]; [cbn; lia |].
  rewrite fmap_cons. cbn [sum_list List.filter]. rewrite IH.
  destruct (p x); cbn [negb length]; unfold id; rewrite Nat.mul_succ_r; lia.
Qed.

(** X4: a run that returns prints the opening message first, then one
    line for each missing source and one line for each of the six widths
    of each source that is there, then the closing message: two lines
    more than missing sources plus six per present source (lines 32-76). *)
Theorem lines_printed W s s' :
  main W (fresh s) = Normal tt s' ->
  head (stdout_of (trace s')) = Some opening_msg
  ∧ length (stdout_of (trace s'))
    = (2 + length (missing_entries s) + 6 * length (present_entries s))%nat
  ∧ (length (missing_entries s) + length (present_entries s) = 7)%nat.
Proof.
  intros Hrun.
  destruct (runs_of_completed_run W s s' Hrun) as (evs & Hsw & _ & ->).
  assert (Hn : (sweep_step W (present s)
                  (setup_trace ++ [EPrint opening_msg])).2 = None)
    by (by rewrite Hsw).
  pose proof (thread_normal_sum (entry_step W (present s))
                (fun tr => length (stdout_of tr))
                (fun e => if present s e.1 then 6%nat else 1%nat)
                (setup_trace ++ [EPrint opening_msg]) svg_files
                eq_refl length_stdout_app) as Hsum.
  fold (sweep_step W (present s) (setup_trace ++ [EPrint opening_msg])) in Hsum.
  rewrite Hsw in Hsum. cbn [fst snd] in Hsum.
  split; [reflexivity |]. split.
  - cbn [length]. rewrite length_app, Hsum; [| | done].
    + rewrite (sum_list_cond (fun e => present s e.1)).
      unfold missing_entries, present_entries. cbn [length]. lia.
    + intros tr' [f b] Hfb Hnone. cbn [fst snd].
      destruct (present s f) eqn:Hp.
      * pose proof (entry_step_present _ _ _ _ _ Hnone Hp) as Heq.
        rewrite Heq in Hnone |- *. clear Heq.
        rewrite (thread_normal_sum _ (fun tr => length (stdout_of tr))
                   (fun _ => 1%nat) tr' widths eq_refl length_stdout_app);
          [reflexivity | | done].
        intros tr'' z Hz Hnone'.
        destruct (convert_step_cases W tr'' f b z)
          as [(Heq & _) | [_ [[Heq _] | [_ [Heq | (e & Heq & _)]]]]];
          rewrite Heq in *; done.
      * by rewrite (entry_step_missing _ _ _ _ _ Hnone Hp).
  - unfold missing_entries, present_entries.
    pose proof (List.filter_length (fun e => present s e.1) svg_files) as H.
    change (length svg_files) with 7%nat in H. lia.
Qed.

Lemma lines_printed_witness :
  length (stdout_of (trace (state_of (main magick_only (fresh icon_only)))))
  = 14%nat.
Proof.
  destruct (lines_printed magick_only icon_only
              (state_of (main magick_only (fresh icon_only))))
    as (_ & Hlen & _).
  - apply normal_of_completes. vm_compute. reflexivity.
  - rewrite Hlen. vm_compute. reflexivity.
Defined.

(** X5: when the setup loop ends in an exception, the run ends in that
    exception; the last thing it did is the [mkdir] call that raised
    it; nothing was printed, not even the opening message; no command
    was launched; no file was added; and no directory that was there is
    gone (lines 27-32). *)
Theorem aborted_run_is_silent W s e s' :
  create_size_dirs W (fresh s) = Raised e s' ->
  main W (fresh s) = Raised e s'
  ∧ stdout_of (trace s') = []
  ∧ runs_of (trace s') = []
  ∧ files s' = files s
  ∧ dirs s ⊆ dirs s'
  ∧ ∃ z t, z ∈ widths
           ∧ mkdir_p W (size_dir z) t = Raised e s'
           ∧ last (trace s') = Some (EMkdir (size_dir z)).
Proof.
  intros Hsetup.
  pose proof (mkdirs_spec W widths (fresh s)) as Hs. cbv zeta in Hs.
  rewrite <- create_size_dirs_flat, Hsetup in Hs. simpl_state.
  destruct Hs as (Hf & Hsub & _ & [k Ht] & z & t & Hz & Hm & Hlast).
  split; [rewrite main_spec; by rewrite Hsetup |].
  rewrite app_nil_l in Ht.
  split; [by rewrite Ht, stdout_of_mkdirs |].
  split; [by rewrite Ht, runs_of_mkdirs |].
  do 2 (split; [done |]). by exists z, t.
Qed.

Lemma aborted_run_is_silent_witness :
  stdout_of (trace (state_of (main read_only (fresh icon_only)))) = [].
Proof.
  destruct (aborted_run_is_silent read_only icon_only PermissionError
              (state_of (create_size_dirs read_only (fresh icon_only))))
    as (Hrun & Hout & _).
  - apply raised_of_exn. vm_compute. reflexivity.
  - rewrite Hrun. exact Hout.
Defined.

Lemma size_dir_chain z p :
  z ∈ widths -> p ∈ path_chain (size_dir z) ->
  p ∈ path_chain png_dir ∨ p = size_dir z.
Proof.
  intros Hz Hp.
  assert (H : Forall (fun z => Forall (fun p =>
            p ∈ path_chain png_dir ∨ p = size_dir z)
            (path_chain (size_dir z))) widths) by by_evaluation.
  rewrite Forall_forall in H. specialize (H _ Hz).
  rewrite Forall_forall in H. exact (H _ Hp).
Qed.

(** X6: whatever the outcome, a run removes nothing; every file it adds
    is the output of a pair whose source is there, directly inside the
    size directory of its width, which exists; every directory it adds is
    a size directory, the PNG root or an ancestor of it; and every
    registered source is there afterwards exactly if it was before
    (lines 27-30, 43-70). *)
Theorem additions_stay_in_png_tree W s :
  files s ⊆ files (state_of (main W (fresh s)))
  ∧ dirs s ⊆ dirs (state_of (main W (fresh s)))
  ∧ (∀ p, p ∈ files (state_of (main W (fresh s))) -> p ∉ files s ->
       ∃ f b z, (f, b) ∈ svg_files ∧ z ∈ widths ∧ present s f = true
         ∧ p = path_div (size_dir z)
                 ("synced-sports-" +:+ b +:+ "-" +:+ str_int z +:+ ".png")
         ∧ size_dir z ∈ dirs (state_of (main W (fresh s))))
  ∧ (∀ p, p ∈ dirs (state_of (main W (fresh s))) -> p ∉ dirs s ->
       p ∈ path_chain png_dir ∨ ∃ z, z ∈ widths ∧ p = size_dir z)
  ∧ (∀ f b, (f, b) ∈ svg_files ->
       present (state_of (main W (fresh s))) f = present s f).
Proof.
  pose proof (mkdirs_spec W widths (fresh s)) as Hs. cbv zeta in Hs.
  rewrite <- create_size_dirs_flat, <- dirs_of_run in Hs. simpl_state.
  destruct Hs as (_ & Hsub & Hnew & _).
  split; [intros p; apply kept_in_run |]. split; [exact Hsub |].
  split; [| split].
  - intros p Hp Hnp.
    apply written_in_run in Hp
      as [? | (f & b & z & Hfb & Hz & Hpres & -> & Hd)]; [done |].
    exists f, b, z. do 3 (split; [done |]). split; [reflexivity | done].
  - intros p Hp Hnp. destruct (Hnew p Hp) as [? | (z & Hz & Hc)]; [done |].
    destruct (size_dir_chain z p Hz Hc); eauto.
  - intros f b Hfb. by apply (run_keeps_sources W s f b).
Qed.

Lemma additions_stay_in_png_tree_witness :
  present (state_of (main magick_only (fresh icon_only)))
    "synced-sports-white.svg" = false.
Proof.
  destruct (additions_stay_in_png_tree magick_only icon_only)
    as (_ & _ & _ & _ & Hsrc).
  rewrite (Hsrc "synced-sports-white.svg" "white").
  - vm_compute. reflexivity.
  - by_evaluation.
Defined.

Lemma line_in_stdout_of_run W s line :
  line ∈ stdout_of (trace (state_of (main W (fresh s))))
  <-> EPrint line ∈ trace (state_of (main W (fresh s))).
Proof.
  rewrite elem_of_stdout_of. split; [| by left].
  intros [? | Hc]; [done |]. by destruct (child_event_not_in_run W s line).
Qed.

(** X8: in a run that returns, a pair whose source is there leaves
    exactly one of its three lines.  Its plain "Created" line means that
    the Inkscape call got the script past it, its "(with ImageMagick)"
    line that the ImageMagick call did.  With a standard output that
    takes every line the lines tell what happened: "Created" exactly if
    the Inkscape call succeeded, "(with ImageMagick)" exactly if it did
    not and the ImageMagick call did, "Could not convert" exactly if
    neither did (lines 54-74). *)
Theorem report_is_faithful W s s' f b z :
  main W (fresh s) = Normal tt s' ->
  (f, b) ∈ svg_files -> z ∈ widths ->
  present s f = true ->
  ((created_msg b z ∈ stdout_of (trace s')
    ∧ (created_magick_msg b z ∉ stdout_of (trace s'))
    ∧ failed_msg f z ∉ stdout_of (trace s'))
   ∨ ((created_msg b z ∉ stdout_of (trace s'))
      ∧ created_magick_msg b z ∈ stdout_of (trace s')
      ∧ failed_msg f z ∉ stdout_of (trace s'))
   ∨ ((created_msg b z ∉ stdout_of (trace s'))
      ∧ (created_magick_msg b z ∉ stdout_of (trace s'))
      ∧ failed_msg f z ∈ stdout_of (trace s')))
  ∧ (created_msg b z ∈ stdout_of (trace s') ->
     call_ok W (inkscape_cmd f b z) true = true)
  ∧ (created_magick_msg b z ∈ stdout_of (trace s') ->
     call_ok W (magick_cmd f b z) false = true)
  ∧ (prints_work W ->
     (created_msg b z ∈ stdout_of (trace s')
      <-> call_ok W (inkscape_cmd f b z) true = true)
     ∧ (created_magick_msg b z ∈ stdout_of (trace s')
        <-> call_ok W (inkscape_cmd f b z) true = false
            ∧ call_ok W (magick_cmd f b z) false = true)
     ∧ (failed_msg f z ∈ stdout_of (trace s')
        <-> call_ok W (inkscape_cmd f b z) true = false
            ∧ call_ok W (magick_cmd f b z) false = false)).
Proof.
  intros Hrun Hfb Hz Hp.
  pose proof (line_in_stdout_of_run W s) as Hl. rewrite Hrun in Hl.
  simpl_state. rewrite !Hl.
  destruct (pair_report W s s' f b z Hrun Hfb Hz Hp)
    as [_ [(Hi & Hc & _ & Hcm & Hf)
          | (Hi & Hc & _ & [(Hm & Hcm & Hf) | (Hm & Hcm & Hf)])]].
  - split; [tauto |]. split; [done |]. split; [tauto |].
    intros _. split; [tauto |]. split; (split; [tauto | intros [? ?]; congruence]).
  - split; [tauto |]. split; [tauto |]. split; [done |].
    intros Hpw. destruct Hi as [Hi | ?]; [| tauto].
    split; [split; [tauto | congruence] |].
    split; [tauto |]. split; [tauto | intros [? ?]; congruence].
  - split; [tauto |]. split; [tauto |]. split; [tauto |].
    intros Hpw. destruct Hi as [Hi | ?]; [| tauto].
    destruct Hm as [Hm | ?]; [| tauto].
    split; [split; [tauto | congruence] |].
    split; [split; [tauto | intros [? ?]; congruence] | tauto].
Qed.

Lemma report_is_faithful_witness :
  created_magick_msg "icon" 64
    ∈ stdout_of (trace (state_of (main magick_only (fresh icon_only)))).
Proof.
  destruct (report_is_faithful magick_only icon_only
              (state_of (main magick_only (fresh icon_only)))
              "synced-sports-icon.svg" "icon" 64)
    as (_ & _ & _ & Hio).
  - apply normal_of_completes. vm_compute. reflexivity.
  - by_evaluation.
  - by_evaluation.
  - vm_compute. reflexivity.
  - destruct (Hio (fun _ _ => eq_refl)) as (_ & Hm & _).
    apply Hm. split; reflexivity.
Defined.

(** ** The script at work *)

Example icon_alone_stdout :
  stdout_of (trace (state_of (main magick_only (fresh icon_only))))
  = [ "Generating PNG exports...";
      "Skipping synced-sports-primary.svg - file not found";
      "Skipping synced-sports-horizontal.svg - file not found";
      "Created synced-sports-icon-32.png (with ImageMagick)";
      "Created synced-sports-icon-64.png (with ImageMagick)";
      "Created synced-sports-icon-128.png (with ImageMagick)";
      "Created synced-sports-icon-256.png (with ImageMagick)";
      "Created synced-sports-icon-512.png (with ImageMagick)";
      "Created synced-sports-icon-1024.png (with ImageMagick)";
      "Skipping synced-sports-waves-only.svg - file not found";
      "Skipping synced-sports-black.svg - file not found";
      "Skipping synced-sports-white.svg - file not found";
      "Skipping synced-sports-wordmark.svg - file not found";
      closing_msg ].
Proof. vm_compute. reflexivity. Qed.

Example icon_alone_files :
  files (state_of (main magick_only (fresh icon_only)))
  = files icon_only ∪ list_to_set (output_path "icon" <$> widths).
Proof. by_evaluation. Qed.

Example icon_alone_commands :
  length (runs_of (trace (state_of (main magick_only (fresh icon_only)))))
  = 12%nat.
Proof. vm_compute. reflexivity. Qed.

Example read_only_tree_aborts :
  exn_of (main read_only (fresh icon_only)) = Some PermissionError
  ∧ trace (state_of (main read_only (fresh icon_only)))
    = [EMkdir (size_dir 32)].
Proof. split; vm_compute; reflexivity. Qed.

Example read_only_tree_with_dirs_runs :
  completes (main read_only (fresh icon_and_size_dirs)) = true
  ∧ dirs (state_of (main read_only (fresh icon_and_size_dirs)))
    = dirs icon_and_size_dirs.
Proof. split; [vm_compute; reflexivity | by_evaluation]. Qed.

Example garbled_inkscape_stdout :
  stdout_of (trace (state_of (main garbled_inkscape (fresh icon_only))))
  = stdout_of (trace (state_of (main magick_only (fresh icon_only)))).
Proof. vm_compute. reflexivity. Qed.

Example all_sources_commands :
  length (runs_of (trace (state_of (main no_tools (fresh all_sources)))))
  = 84%nat
  ∧ length (stdout_of (trace (state_of (main no_tools (fresh all_sources)))))
    = 44%nat.
Proof. split; vm_compute; reflexivity. Qed.
